(** * The docs plugin: version assembly and navigation resolution

    A shallow embedding of
    [packages/docusaurus-plugin-content-docs/src/index.ts]: the closure
    returned by [pluginContentDocs], its [loadContent] and
    [contentLoaded] life-cycle methods and the helper
    [getVersionPathPart].

    JavaScript objects used as dictionaries are finite maps ([gmap] with
    string keys) of the keys they have of their own, with the names
    inherited from [Object.prototype] kept apart; optional properties
    and [undefined] are [option]; exceptions and rejected promises are
    the [Err] case of [result]; the one mutable table shared by the
    closure ([sourceToPermalink]) is threaded as explicit state; and
    the tasks joined by [Promise.all] act on the state in the order in
    which they settle, which the environment chooses. *)

From Stdlib Require Import ZArith.
From stdpp Require Import base option list list_monad gmap strings fin_maps
  sorting.

Local Open Scope string_scope.
Local Open Scope Z_scope.
Local Open Scope list_scope.

(** ** Failure *)

(** Either a JavaScript runtime error raised by the plugin itself (reading
    a property of [undefined]), or an error thrown by a collaborator. *)
Inductive error : Type :=
  | TypeError (msg : string)
  | Thrown (msg : string).

Inductive result (A : Type) : Type :=
  | Ok (a : A)
  | Err (e : error).
Arguments Ok {A} a.
Arguments Err {A} e.

#[global] Instance result_ret : MRet result := λ A a, Ok a.
#[global] Instance result_bind : MBind result := λ A B f r,
  match r with
  | Ok a => f a
  | Err e => Err e
  end.
#[global] Instance result_fmap : FMap result := λ A B f r,
  match r with
  | Ok a => Ok (f a)
  | Err e => Err e
  end.

(** ** Stateful, fallible steps *)

(** A step reads and writes a store [S] and either returns or throws.
    The store survives a throw: what was written before it stays
    written. *)
Definition M (S A : Type) : Type := S → result A * S.

#[global] Instance M_ret {S} : MRet (M S) := λ A a s, (Ok a, s).
#[global] Instance M_bind {S} : MBind (M S) := λ A B f m s,
  match m s with
  | (Ok a, s') => f a s'
  | (Err e, s') => (Err e, s')
  end.

Definition lift {S A} (r : result A) : M S A := λ s, (r, s).
Definition modify {S} (f : S → S) : M S () := λ s, (Ok (), f s).

(** *** [Promise.all]

    The tasks given to [Promise.all] were all started and none is
    cancelled when another one fails.  Each task of this plugin touches
    the store only in the synchronous stretch that ends it, so a task
    acts on the store at the moment it settles, and the tasks settle in
    an order that the environment decides.

    That order is given as a list [order]: its i-th number says how
    many of the tasks after the i-th one settle before it (none when
    the list is too short, all of them when the number is too big).
    Every list is an order of settling and every order of settling is
    such a list; the empty list is the order of the array. *)
Fixpoint timeline {X} (order : list nat) (l : list X) : list X :=
  match l with
  | [] => []
  | x :: rest =>
      let later := timeline (tail order) rest in
      take (default 0%nat (head order)) later
        ++ x :: drop (default 0%nat (head order)) later
  end.

(** The tasks, each with its position in the array, run one after the
    other in the order in which they settle. *)
Fixpoint runAll {S A} (settling : list (nat * M S A)) (s : S)
  : list (nat * result A) * S :=
  match settling with
  | [] => ([], s)
  | (i, t) :: rest =>
      let '(r, s1) := t s in
      let '(outcomes, s2) := runAll rest s1 in
      ((i, r) :: outcomes, s2)
  end.

(** The first rejection in the order of settling. *)
Fixpoint firstError {A} (outcomes : list (nat * result A)) : option error :=
  match outcomes with
  | [] => None
  | (_, Err e) :: _ => Some e
  | (_, Ok _) :: rest => firstError rest
  end.

(** The value with which the task at position [i] was fulfilled. *)
Definition settledValue {A} (outcomes : list (nat * result A)) (i : nat)
  : option A :=
  match (list_to_map outcomes : gmap nat (result A)) !! i with
  | Some (Ok a) => Some a
  | _ => None
  end.

(** [Promise.all] rejects with the first rejection, and is otherwise
    fulfilled with the values in the order of the array, whatever the
    order of settling.  The store returned is the one left when every
    task has settled. *)
Definition promiseAll {S A} (order : list nat) (tasks : list (M S A))
  : M S (list A) := λ s,
  let '(outcomes, s') := runAll (timeline order (imap pair tasks)) s in
  (match firstError outcomes with
   | Some e => Err e
   | None => Ok (omap (settledValue outcomes) (seq 0 (length tasks)))
   end, s').

(** [Promise.all] over promises that touch no store. *)
Definition promiseAllPure {A} (order : list nat) (settled : list (result A))
  : result (list A) :=
  (promiseAll order (lift <$> settled) ()).1.

(** A store transformer that only overlays a fixed set of bindings. *)
Definition overlay {V} (g : gmap string V → gmap string V) : Prop :=
  ∃ m, ∀ s, g s = m ∪ s.

(** A step whose outcome does not depend on the store and whose effect
    on the store is an overlay. *)
Definition steady {V A} (t : M (gmap string V) A) : Prop :=
  ∃ r g, overlay g ∧ ∀ s, t s = (r, g s).

(** ** JavaScript odds and ends *)

(** The names that every plain object inherits from [Object.prototype]:
    looking one of them up in an object used as a dictionary, when the
    object has no key of that name of its own, gives a function (the
    prototype itself for [__proto__]), not [undefined].  The finite
    maps below hold the keys that a dictionary has of its own.  For
    [docsOrder] an inherited member reads like no entry, since it has
    no [sidebar], [previous] or [next]; for [docsById] it does not, see
    [toDocNavLink]. *)
Definition objectPrototypeKeys : list string :=
  ["constructor"; "__defineGetter__"; "__defineSetter__"; "hasOwnProperty";
   "__lookupGetter__"; "__lookupSetter__"; "isPrototypeOf";
   "propertyIsEnumerable"; "toString"; "valueOf"; "__proto__";
   "toLocaleString"].

(** Truthiness of a possibly missing string: [undefined] and the empty
    string are falsy. *)
Definition truthy (o : option string) : bool :=
  match o with
  | Some s => negb (String.eqb s "")
  | None => false
  end.

(** [Array.prototype.sort] with a comparator returning a number: a stable
    sort, here by insertion from the right. *)
Section sort.
Context {A : Type} (cmp : A → A → Z).

Fixpoint sort_insert (x : A) (l : list A) : list A :=
  match l with
  | [] => [x]
  | y :: l' => if cmp x y <=? 0 then x :: y :: l' else y :: sort_insert x l'
  end.

Definition array_sort (l : list A) : list A := foldr sort_insert [] l.
End sort.

(** ** Data model *)

Definition VersionName := string.

(** Modelled from the spec: the literal [CURRENT_VERSION_NAME], imported
    from [./constants], which is not part of the sources at hand; the
    specification names the unreleased version "current". *)
Definition CURRENT_VERSION_NAME : VersionName := "current".

(** The fields of [VersionMetadata] (declared in [./types]) that the
    plugin reads. *)
Record VersionMetadata : Type := {
  versionName : VersionName;
  docsPath : string;
  sidebarPath : string;
}.

(** The fields of [DocMetadataBase] that the plugin reads. *)
Record DocMetadataBase : Type := {
  version : VersionName;
  unversionedId : string;
  id : string;
  title : string;
  source : string;
  slug : string;
  permalink : string;
}.

(** The link to a neighbour.  The two fields are strings by their
    declared type, and [undefined] when [toDocNavLink] reads them off a
    value that has no such property (see there). *)
Record DocNavLink : Type := {
  nav_title : option string;
  nav_permalink : option string;
}.

(** [DocMetadata] is [DocMetadataBase] extended (by object spread) with
    three optional navigation fields. *)
Record DocMetadata : Type := {
  base : DocMetadataBase;
  sidebar : option string;
  previous : option DocNavLink;
  next : option DocNavLink;
}.

(** One value of the [Order] dictionary; every field is optional. *)
Record OrderNode : Type := {
  o_sidebar : option string;
  o_previous : option string;
  o_next : option string;
}.

(** The result of destructuring [{}]. *)
Definition emptyOrderNode : OrderNode :=
  {| o_sidebar := None; o_previous := None; o_next := None |}.

Record PluginOptions : Type := {
  homePageId : option string;
  routeBasePath : string;
  docLayoutComponent : string;
  docItemComponent : string;
}.

#[global] Instance VersionMetadata_eq_dec : EqDecision VersionMetadata.
Proof. solve_decision. Defined.
#[global] Instance DocNavLink_eq_dec : EqDecision DocNavLink.
Proof. solve_decision. Defined.
#[global] Instance DocMetadataBase_eq_dec : EqDecision DocMetadataBase.
Proof. solve_decision. Defined.
#[global] Instance DocMetadata_eq_dec : EqDecision DocMetadata.
Proof. solve_decision. Defined.

(** The version object returned by [loadVersion]: the spread of the
    version's metadata followed by the computed fields. *)
Record LoadedVersion (Sidebars : Type) : Type := {
  metadata : VersionMetadata;
  versionPath : string;
  mainDocId : string;
  sidebars : Sidebars;
  permalinkToSidebar : gmap string string;
  docs : list DocMetadata;
}.
Arguments metadata {Sidebars} _.
Arguments versionPath {Sidebars} _.
Arguments mainDocId {Sidebars} _.
Arguments sidebars {Sidebars} _.
Arguments permalinkToSidebar {Sidebars} _.
Arguments docs {Sidebars} _.

Record LoadedContent (Sidebars : Type) : Type := {
  loadedVersions : list (LoadedVersion Sidebars);
}.
Arguments loadedVersions {Sidebars} _.

(** A route handed to [addRoute]; [modules] maps a module name to its
    source, [priority] is optional. *)
#[warnings="-register-all"]
Inductive RouteConfig : Type := mkRoute {
  path : string;
  component : string;
  exact : bool;
  routes : list RouteConfig;
  modules : list (string * string);
  priority : option Z;
}.

Record GlobalPluginData (GlobalVersion : Type) : Type := {
  gd_path : string;
  latestVersionName : option VersionName;
  versions : list GlobalVersion;
}.
Arguments gd_path {GlobalVersion} _.
Arguments latestVersionName {GlobalVersion} _.
Arguments versions {GlobalVersion} _.

(** What the [actions] of [contentLoaded] have accumulated: the routes
    added so far and the global data last set. *)
Record Actions (GlobalVersion : Type) : Type := {
  addedRoutes : list RouteConfig;
  globalData : option (GlobalPluginData GlobalVersion);
}.
Arguments addedRoutes {GlobalVersion} _.
Arguments globalData {GlobalVersion} _.

(** ** The plugin closure *)

(** What the closure returned by [pluginContentDocs] captures: the site
    context, the normalised options, the versions found by
    [readVersionsMetadata], the latest version name of the legacy
    versioning environment ([string | null]), and the collaborators
    imported from other modules.  Those that touch the file system or
    validate their input may throw.  [localeCompare] is
    [String.prototype.localeCompare]: negative, zero or positive.
    [loadOrder] is the order in which the versions settle in
    [loadContent], and [processOrder] the order in which the files of a
    version settle in [loadVersionDocs] (both as for [timeline]). *)
Class Closure (Sidebars DocFile : Type) : Type := {
  baseUrl : string;
  options : PluginOptions;
  versionsMetadata : list VersionMetadata;
  latestVersion : option VersionName;
  readVersionDocs : VersionMetadata → result (list DocFile);
  processDocMetadata : DocFile → VersionMetadata → result DocMetadataBase;
  loadSidebars : list string → result Sidebars;
  createOrder : Sidebars → gmap string OrderNode;
  normalizeUrl : list string → string;
  localeCompare : string → string → Z;
  loadOrder : list nat;
  processOrder : VersionMetadata → list nat;
}.

(** What [contentLoaded] uses besides: the summary of a version for the
    global data, the hash used in file names, [JSON.stringify] of a
    document's metadata and of a version's metadata prop, the
    [createData] action (it returns the path written, or fails), and the
    closure's [aliasedSource].  [publishOrder] is the order in which the
    versions settle in [contentLoaded], and [writeOrder] the order in
    which the writes for the documents of a version settle in
    [createDocRoutes]. *)
Class Publishing (Sidebars GlobalVersion : Type) : Type := {
  toGlobalDataVersion : LoadedVersion Sidebars → GlobalVersion;
  docuHash : string → string;
  stringifyDoc : DocMetadata → string;
  stringifyVersionMetadataProp : LoadedVersion Sidebars → string;
  createData : string → string → result string;
  aliasedSource : string → string;
  publishOrder : list nat;
  writeOrder : list DocMetadata → list nat;
}.

Section plugin.
Context {Sidebars DocFile : Type} {plugin : Closure Sidebars DocFile}.

(** The closure's mutable side table. *)
Definition SourceToPermalink : Type := gmap string string.

Definition getVersionPathPart (version : VersionName) : string :=
  if decide (Some version = latestVersion) then ""
  else if decide (version = CURRENT_VERSION_NAME) then "next"
  else version.

(** *** loadContent *)

(** The collaborators keep no state of the closure: the files are
    processed by promises that touch no store. *)
Definition loadVersionDocs (versionMetadata : VersionMetadata)
  : result (list DocMetadataBase) :=
  docFiles ← readVersionDocs versionMetadata;
  promiseAllPure (processOrder versionMetadata)
    ((λ docFile, processDocMetadata docFile versionMetadata) <$> docFiles).

(** lodash [keyBy]: a later element replaces an earlier one with the
    same key. *)
Definition keyBy {A} (key : A → string) (l : list A) : gmap string A :=
  foldl (λ m a, <[key a := a]> m) ∅ l.

Section loadVersion.
(** The locals of one call of [loadVersion]. *)
Variable docsById : gmap string DocMetadataBase.
Variable docsOrder : gmap string OrderNode.

(** [docsById] is a plain object: [docsById[navDocId]] is the document
    kept under that key, else the member of that name inherited from
    [Object.prototype], which has neither a [title] nor a [permalink],
    else [undefined], and reading [.title] of [undefined] throws. *)
Definition toDocNavLink (navDocId : string) : result DocNavLink :=
  match docsById !! navDocId with
  | Some d => Ok {| nav_title := Some (title d);
                    nav_permalink := Some (permalink d) |}
  | None =>
      if bool_decide (navDocId ∈ objectPrototypeKeys)
      then Ok {| nav_title := None; nav_permalink := None |}
      else Err (TypeError "Cannot read property 'title' of undefined")
  end.

(** [navId ? toDocNavLink(navId) : undefined] *)
Definition navLink (navId : option string) : result (option DocNavLink) :=
  match navId with
  | Some i => if truthy navId then Some <$> toDocNavLink i else Ok None
  | None => Ok None
  end.

Definition addNavData (doc : DocMetadataBase) : result DocMetadata :=
  let node := default emptyOrderNode (docsOrder !! id doc) in
  previousLink ← navLink (o_previous node);
  nextLink ← navLink (o_next node);
  mret {| base := doc;
          sidebar := o_sidebar node;
          previous := previousLink;
          next := nextLink |}.
End loadVersion.


(** The first [forEach] over the sorted documents: the side effect on
    the closure's table. *)
Definition recordPermalinks (loadedDocs : list DocMetadata)
    (sourceToPermalink : SourceToPermalink) : SourceToPermalink :=
  foldl (λ m loadedDoc,
           <[source (base loadedDoc) := permalink (base loadedDoc)]> m)
        sourceToPermalink loadedDocs.

(** The second [forEach]: [docsOrder[docId]?.sidebar], kept when
    truthy. *)
Definition docSidebarName (docsOrder : gmap string OrderNode)
    (docId : string) : option string :=
  docsOrder !! docId ≫= o_sidebar.

Definition buildPermalinkToSidebar (docsOrder : gmap string OrderNode)
    (loadedDocs : list DocMetadata) : gmap string string :=
  foldl (λ m loadedDoc,
           match docSidebarName docsOrder (id (base loadedDoc)) with
           | Some name =>
               if truthy (Some name)
               then <[permalink (base loadedDoc) := name]> m
               else m
           | None => m
           end)
        ∅ loadedDocs.

(** The predicate given to [docs.find]. *)
Definition isMainDoc (doc : DocMetadataBase) : bool :=
  bool_decide (Some (unversionedId doc) = homePageId options)
  || String.eqb (slug doc) "/".

(** The same test as a proposition. *)
Definition matchesHome (doc : DocMetadataBase) : Prop :=
  Some (unversionedId doc) = homePageId options ∨ slug doc = "/".

(** [docs.find(...) ?? docs[0]]; [undefined] on an empty array. *)
Definition findMainDoc (docs : list DocMetadataBase) : option DocMetadataBase :=
  match List.find isMainDoc docs with
  | Some doc => Some doc
  | None => head docs
  end.

Definition loadVersion (versionMetadata : VersionMetadata)
  : M SourceToPermalink (LoadedVersion Sidebars) :=
  docs ← lift (loadVersionDocs versionMetadata);
  let docsById := keyBy id docs in
  sidebars ← lift (loadSidebars [sidebarPath versionMetadata]);
  let docsOrder := createOrder sidebars in
  loadedDocs ← lift (mapM (addNavData docsById docsOrder) docs);
  let loadedDocs :=
    array_sort (λ a b, localeCompare (id (base a)) (id (base b))) loadedDocs in
  _ ← modify (recordPermalinks loadedDocs);
  let permalinkToSidebar := buildPermalinkToSidebar docsOrder loadedDocs in
  let versionPath :=
    normalizeUrl [baseUrl; routeBasePath options;
                  getVersionPathPart (versionName versionMetadata)] in
  let mainDoc := findMainDoc docs in
  mainDocId ← lift (match mainDoc with
                    | Some doc => Ok (unversionedId doc)
                    | None =>
                        Err (TypeError
                          "Cannot read property 'unversionedId' of undefined")
                    end);
  docs' ← lift (mapM (addNavData docsById docsOrder) docs);
  mret {| metadata := versionMetadata;
          versionPath := versionPath;
          mainDocId := mainDocId;
          sidebars := sidebars;
          permalinkToSidebar := permalinkToSidebar;
          docs := docs' |}.

Definition loadContent : M SourceToPermalink (LoadedContent Sidebars) :=
  versions ← promiseAll loadOrder (map loadVersion versionsMetadata);
  mret {| loadedVersions := versions |}.

(** *** contentLoaded *)

Context {GlobalVersion : Type} {publishing : Publishing Sidebars GlobalVersion}.

Definition addRoute (route : RouteConfig) : M (Actions GlobalVersion) () :=
  modify (λ a, {| addedRoutes := addedRoutes a ++ [route];
                  globalData := globalData a |}).

Definition setGlobalData (data : GlobalPluginData GlobalVersion)
  : M (Actions GlobalVersion) () :=
  modify (λ a, {| addedRoutes := addedRoutes a; globalData := Some data |}).

Definition createDocRoutes (docs : list DocMetadata) : result (list RouteConfig) :=
  docRoutes ← promiseAllPure (writeOrder docs) ((λ metadataItem,
      _ ← createData (docuHash (source (base metadataItem)) +:+ ".json")
                     (stringifyDoc metadataItem);
      mret {| path := permalink (base metadataItem);
              component := docItemComponent options;
              exact := true;
              routes := [];
              modules := [("content", source (base metadataItem))];
              priority := None |}) <$> docs);
  mret (array_sort (λ a b, localeCompare (path a) (path b)) docRoutes).

Definition handleVersion (loadedVersion : LoadedVersion Sidebars)
  : M (Actions GlobalVersion) () :=
  let name := versionName (metadata loadedVersion) in
  versionMetadataPropPath ← lift (createData
      (docuHash ("version-" +:+ name +:+ "-metadata-prop") +:+ ".json")
      (stringifyVersionMetadataProp loadedVersion));
  docRoutes ← lift (createDocRoutes (docs loadedVersion));
  addRoute {| path := versionPath loadedVersion;
              exact := false;
              component := docLayoutComponent options;
              routes := docRoutes;
              modules := [("versionMetadata",
                           aliasedSource versionMetadataPropPath)];
              priority := if decide (getVersionPathPart name = "")
                          then Some (-1) else None |}.

Definition contentLoaded (content : LoadedContent Sidebars)
  : M (Actions GlobalVersion) () :=
  _ ← promiseAll publishOrder (map handleVersion (loadedVersions content));
  setGlobalData {| gd_path := normalizeUrl [baseUrl; routeBasePath options];
                   latestVersionName := latestVersion;
                   versions := map toGlobalDataVersion (loadedVersions content) |}.

(** Modelled from the spec: the [isLast] flag of a version descriptor.
    The version metadata read in this file carries no such field; the
    latest version is the one the versioning environment names. *)
Definition isLast (versionMetadata : VersionMetadata) : bool :=
  bool_decide (Some (versionName versionMetadata) = latestVersion).

(** The main document as the specification words it: the document
    whose slug is exactly [/], else the document whose unversioned id is
    the configured home id, else the first document after a stable sort
    by id.  It is compared with [findMainDoc] below. *)
Definition spec_mainDoc (docs : list DocMetadataBase) : option DocMetadataBase :=
  match List.find (λ doc, String.eqb (slug doc) "/") docs with
  | Some doc => Some doc
  | None =>
      match List.find (λ doc, bool_decide (Some (unversionedId doc)
                                           = homePageId options)) docs with
      | Some doc => Some doc
      | None => head (array_sort (λ a b, localeCompare (id a) (id b)) docs)
      end
  end.

End plugin.


(** ** A small site

    Three versions, [2.0] (latest), [1.0] and the unreleased one, with
    collaborators simple enough to evaluate: a document file is already
    its metadata, a sidebars value is already its order, URLs are joined
    with slashes and strings are compared by code point. *)
Module Site.

Definition mkDoc (v i sl : string) : DocMetadataBase :=
  {| version := v; unversionedId := i; id := "version-" +:+ v +:+ "/" +:+ i;
     title := "About " +:+ i; source := "@site/" +:+ v +:+ "/" +:+ i +:+ ".md";
     slug := sl; permalink := "/docs/" +:+ v +:+ sl |}.

Definition mkVersion (name : string) : VersionMetadata :=
  {| versionName := name; docsPath := "docs/" +:+ name;
     sidebarPath := "sidebars/" +:+ name +:+ ".json" |}.

Definition siteOptions (home : option string) : PluginOptions :=
  {| homePageId := home; routeBasePath := "docs";
     docLayoutComponent := "@theme/DocPage";
     docItemComponent := "@theme/DocItem" |}.

Definition allVersions : list VersionMetadata :=
  [mkVersion "current"; mkVersion "2.0"; mkVersion "1.0"].

Definition brokenVersions : list VersionMetadata :=
  [mkVersion "2.0"; mkVersion "empty"; mkVersion "1.0"].

(** [2.0] is read as setup, intro, faq (not in id order); intro has
    slug [/]; faq is in no sidebar.  [1.0] has two documents and neither
    a home id nor a slug [/].  The unreleased version has a document
    that a home id can name before one with slug [/].  A version named
    [empty] has no document, any other name has no directory. *)
Definition docs20 : list DocMetadataBase :=
  [mkDoc "2.0" "setup" "/setup"; mkDoc "2.0" "intro" "/";
   mkDoc "2.0" "faq" "/faq"].

Definition docs10 : list DocMetadataBase :=
  [mkDoc "1.0" "b" "/b"; mkDoc "1.0" "a" "/a"].

Definition docsCurrent : list DocMetadataBase :=
  [mkDoc "current" "intro" "/intro"; mkDoc "current" "welcome" "/"].

Definition readDocs (vm : VersionMetadata) : result (list DocMetadataBase) :=
  if decide (versionName vm = "2.0") then Ok docs20
  else if decide (versionName vm = "1.0") then Ok docs10
  else if decide (versionName vm = "current") then Ok docsCurrent
  else if decide (versionName vm = "empty") then Ok []
  else Err (Thrown "no such docs directory").

Definition order20 : gmap string OrderNode :=
  {[ "version-2.0/intro" :=
       {| o_sidebar := Some "docs"; o_previous := None;
          o_next := Some "version-2.0/setup" |};
     "version-2.0/setup" :=
       {| o_sidebar := Some "docs"; o_previous := Some "version-2.0/intro";
          o_next := None |} ]}.

Definition readSidebars (paths : list string) : result (gmap string OrderNode) :=
  if decide (paths = ["sidebars/2.0.json"]) then Ok order20 else Ok ∅.

Definition joinUrl (parts : list string) : string :=
  "/" +:+ String.concat "/" (filter (λ p, p ≠ "") parts).

Definition compareCodePoints (a b : string) : Z :=
  match String.compare a b with
  | Lt => -1
  | Eq => 0
  | Gt => 1
  end.

(** The closure for a given home id and version set. *)
Definition closure (home : option string) (versions : list VersionMetadata)
  : Closure (gmap string OrderNode) DocMetadataBase :=
  {| baseUrl := "";
     options := siteOptions home;
     versionsMetadata := versions;
     latestVersion := Some "2.0";
     readVersionDocs := readDocs;
     processDocMetadata := λ docFile _, Ok docFile;
     loadSidebars := readSidebars;
     createOrder := λ sidebars, sidebars;
     normalizeUrl := joinUrl;
     localeCompare := compareCodePoints;
     loadOrder := [];
     processOrder := λ _, [] |}.

Definition site : Closure (gmap string OrderNode) DocMetadataBase :=
  closure None allVersions.

Definition siteWithHome : Closure (gmap string OrderNode) DocMetadataBase :=
  closure (Some "intro") allVersions.

Definition brokenSite : Closure (gmap string OrderNode) DocMetadataBase :=
  closure None brokenVersions.

Definition publishing : Publishing (gmap string OrderNode) string :=
  {| toGlobalDataVersion := λ loadedVersion, versionName (metadata loadedVersion);
     docuHash := λ s, "hash-" +:+ s;
     stringifyDoc := λ doc, id (base doc);
     stringifyVersionMetadataProp :=
       λ loadedVersion, versionName (metadata loadedVersion);
     createData := λ name _, Ok ("data/" +:+ name);
     aliasedSource := λ p, "~docs/" +:+ p;
     publishOrder := [];
     writeOrder := λ _, [] |}.

(** What loading [2.0] and [1.0] is expected to return. *)
Definition unlinked (doc : DocMetadataBase) : DocMetadata :=
  {| base := doc; sidebar := None; previous := None; next := None |}.

Definition setupLoaded : DocMetadata :=
  {| base := mkDoc "2.0" "setup" "/setup";
     sidebar := Some "docs";
     previous := Some {| nav_title := Some "About intro";
                         nav_permalink := Some "/docs/2.0/" |};
     next := None |}.

Definition introLoaded : DocMetadata :=
  {| base := mkDoc "2.0" "intro" "/";
     sidebar := Some "docs";
     previous := None;
     next := Some {| nav_title := Some "About setup";
                     nav_permalink := Some "/docs/2.0/setup" |} |}.

Definition loaded20 : LoadedVersion (gmap string OrderNode) :=
  {| metadata := mkVersion "2.0";
     versionPath := "/docs";
     mainDocId := "intro";
     sidebars := order20;
     permalinkToSidebar :=
       {[ "/docs/2.0/" := "docs"; "/docs/2.0/setup" := "docs" ]};
     docs := [setupLoaded; introLoaded; unlinked (mkDoc "2.0" "faq" "/faq")] |}.

Definition loaded10 : LoadedVersion (gmap string OrderNode) :=
  {| metadata := mkVersion "1.0";
     versionPath := "/docs/1.0";
     mainDocId := "b";
     sidebars := ∅;
     permalinkToSidebar := ∅;
     docs := [unlinked (mkDoc "1.0" "b" "/b"); unlinked (mkDoc "1.0" "a" "/a")] |}.

Definition noActions : Actions string :=
  {| addedRoutes := []; globalData := None |}.

(** What the load cycle produces for the three versions. *)
Definition content : LoadedContent (gmap string OrderNode) :=
  match (loadContent (plugin := site) ∅).1 with
  | Ok loaded => loaded
  | Err _ => {| loadedVersions := [] |}
  end.

End Site.

(** ** The other life-cycle methods *)

Section lifecycle.
Context {Sidebars DocFile : Type} {plugin : Closure Sidebars DocFile}.

(** [getPathsToWatch].  [include] is [options.include], the list of
    glob patterns; lodash [flatten] removes one level of nesting. *)
Definition getVersionPathsToWatch (include : list string)
    (version : VersionMetadata) : list string :=
  sidebarPath version
    :: ((λ pattern, docsPath version +:+ "/" +:+ pattern) <$> include).

Definition getPathsToWatch (include : list string) : list string :=
  mjoin (getVersionPathsToWatch include <$> versionsMetadata).
End lifecycle.

(** [extendCli]: the name and the description of the command that tags a
    version, for the plugin instance [instanceId].
    [DEFAULT_PLUGIN_ID] is a constant of the core package. *)
Section extendCli.
Variable DEFAULT_PLUGIN_ID : string.

(** [options.id ?? DEFAULT_PLUGIN_ID] *)
Definition pluginId (optionsId : option string) : string :=
  default DEFAULT_PLUGIN_ID optionsId.

Definition command (instanceId : string) : string :=
  if decide (instanceId = DEFAULT_PLUGIN_ID) then "docs:version"
  else "docs:version:" +:+ instanceId.

Definition commandDescription (instanceId : string) : string :=
  if decide (instanceId = DEFAULT_PLUGIN_ID) then "Tag a new docs version"
  else "Tag a new docs version (" +:+ instanceId +:+ ")".
End extendCli.

(** ** Faulty variants of the small site *)
Module Faulty.

(** An order for [2.0] in which [setup] names a next document that no
    file provides. *)
Definition danglingOrder : gmap string OrderNode :=
  {[ "version-2.0/intro" :=
       {| o_sidebar := Some "docs"; o_previous := None;
          o_next := Some "version-2.0/setup" |};
     "version-2.0/setup" :=
       {| o_sidebar := Some "docs"; o_previous := Some "version-2.0/intro";
          o_next := Some "version-2.0/missing" |} ]}.

Definition dangling : Closure (gmap string OrderNode) DocMetadataBase :=
  {| baseUrl := "";
     options := Site.siteOptions None;
     versionsMetadata := Site.allVersions;
     latestVersion := Some "2.0";
     readVersionDocs := Site.readDocs;
     processDocMetadata := λ docFile _, Ok docFile;
     loadSidebars := λ _, Ok danglingOrder;
     createOrder := λ sidebars, sidebars;
     normalizeUrl := Site.joinUrl;
     localeCompare := Site.compareCodePoints;
     loadOrder := [];
     processOrder := λ _, [] |}.

(** A [createData] that cannot write the metadata prop of [1.0]. *)
Definition publishing : Publishing (gmap string OrderNode) string :=
  {| toGlobalDataVersion := λ loadedVersion, versionName (metadata loadedVersion);
     docuHash := λ s, "hash-" +:+ s;
     stringifyDoc := λ doc, id (base doc);
     stringifyVersionMetadataProp :=
       λ loadedVersion, versionName (metadata loadedVersion);
     createData := λ name _,
       if decide (name = "hash-version-1.0-metadata-prop.json")
       then Err (Thrown "EACCES") else Ok ("data/" +:+ name);
     aliasedSource := λ p, "~docs/" +:+ p;
     publishOrder := [];
     writeOrder := λ _, [] |}.

End Faulty.

(** ** A sidebar that names a document that is not there

    The unreleased version has one document, [intro], and its sidebar
    lists after it a document [constructor] for which there is no
    file. *)
Module Inherited.

Definition intro : DocMetadataBase :=
  {| version := "current"; unversionedId := "intro"; id := "intro";
     title := "Introduction"; source := "@site/docs/intro.md";
     slug := "/intro"; permalink := "/docs/next/intro" |}.

Definition order : gmap string OrderNode :=
  {[ "intro" :=
       {| o_sidebar := Some "docs"; o_previous := None;
          o_next := Some "constructor" |} ]}.

Definition closure : Closure (gmap string OrderNode) DocMetadataBase :=
  {| baseUrl := "";
     options := Site.siteOptions None;
     versionsMetadata := [Site.mkVersion "current"];
     latestVersion := Some "current";
     readVersionDocs := λ _, Ok [intro];
     processDocMetadata := λ docFile _, Ok docFile;
     loadSidebars := λ _, Ok order;
     createOrder := λ sidebars, sidebars;
     normalizeUrl := Site.joinUrl;
     localeCompare := Site.compareCodePoints;
     loadOrder := [];
     processOrder := λ _, [] |}.

Definition emptyLink : DocNavLink :=
  {| nav_title := None; nav_permalink := None |}.

Definition introLoaded : DocMetadata :=
  {| base := intro; sidebar := Some "docs"; previous := None;
     next := Some emptyLink |}.

End Inherited.

(** ** Three documents under one permalink

    The documents [a], [b] and [c] of a version all have the slug
    [/guide]; [a] is in the sidebar [one], [b] in the sidebar [two], and
    [c] in none. *)
Module SharedPermalink.

Definition a : DocMetadataBase := Site.mkDoc "2.0" "a" "/guide".
Definition b : DocMetadataBase := Site.mkDoc "2.0" "b" "/guide".
Definition c : DocMetadataBase := Site.mkDoc "2.0" "c" "/guide".

Definition order : gmap string OrderNode :=
  {[ "version-2.0/a" :=
       {| o_sidebar := Some "one"; o_previous := None; o_next := None |};
     "version-2.0/b" :=
       {| o_sidebar := Some "two"; o_previous := None; o_next := None |} ]}.

Definition closure : Closure (gmap string OrderNode) DocMetadataBase :=
  {| baseUrl := "";
     options := Site.siteOptions None;
     versionsMetadata := [Site.mkVersion "2.0"];
     latestVersion := Some "2.0";
     readVersionDocs := λ _, Ok [a; b; c];
     processDocMetadata := λ docFile _, Ok docFile;
     loadSidebars := λ _, Ok order;
     createOrder := λ sidebars, sidebars;
     normalizeUrl := Site.joinUrl;
     localeCompare := Site.compareCodePoints;
     loadOrder := [];
     processOrder := λ _, [] |}.


End SharedPermalink.

(** ** The small site, published out of step

    The unreleased version, first of the three, is the last one done
    being handled. *)
Module Staggered.

Definition publishing : Publishing (gmap string OrderNode) string :=
  {| toGlobalDataVersion := λ loadedVersion, versionName (metadata loadedVersion);
     docuHash := λ s, "hash-" +:+ s;
     stringifyDoc := λ doc, id (base doc);
     stringifyVersionMetadataProp :=
       λ loadedVersion, versionName (metadata loadedVersion);
     createData := λ name _, Ok ("data/" +:+ name);
     aliasedSource := λ p, "~docs/" +:+ p;
     publishOrder := [2%nat];
     writeOrder := λ _, [1%nat] |}.

End Staggered.

(** The routes expected for the documents of [2.0], in path order. *)
Module SiteRoutes.

Definition docRoute (doc : DocMetadataBase) : RouteConfig :=
  {| path := permalink doc; component := "@theme/DocItem"; exact := true;
     routes := []; modules := [("content", source doc)]; priority := None |}.

Definition docRoutes20 : list RouteConfig :=
  [docRoute (Site.mkDoc "2.0" "intro" "/");
   docRoute (Site.mkDoc "2.0" "faq" "/faq");
   docRoute (Site.mkDoc "2.0" "setup" "/setup")].

End SiteRoutes.

(** * Properties *)

(** Closed goals over the small site are settled by evaluation. *)
Ltac by_eval := vm_compute; reflexivity.
Ltac by_decide := apply (bool_decide_unpack _); vm_compute; exact I.

(** ** Lists of fallible steps *)

Section mapM_result.
Context {A B : Type} (f : A → result B).

Lemma mapM_cons_Ok x l y k :
  f x = Ok y → mapM f l = Ok k → mapM f (x :: l) = Ok (y :: k).
Proof. intros Hx Hl. cbn. rewrite Hx. cbn. rewrite Hl. reflexivity. Qed.

Lemma mapM_Ok_Forall2 l k :
  mapM f l = Ok k ↔ Forall2 (λ x y, f x = Ok y) l k.
Proof.
  split.
  - revert k. induction l as [|x l IH]; intros k Hk.
    + cbn in Hk. injection Hk as <-. constructor.
    + cbn in Hk. destruct (f x) as [y|e] eqn:Hx; cbn in Hk; [|discriminate].
      destruct (mapM f l) as [k'|e] eqn:Hl; cbn in Hk; [|discriminate].
      injection Hk as <-. constructor; auto.
  - induction 1 as [|x y l k Hx _ IH]; [reflexivity|].
    by apply mapM_cons_Ok.
Qed.

End mapM_result.

(** ** The sort is a rearrangement *)

Section sort_lemmas.
Context {A : Type} (cmp : A → A → Z).

Lemma sort_insert_Permutation x l : sort_insert cmp x l ≡ₚ x :: l.
Proof.
  induction l as [|y l IH]; cbn; [done|].
  destruct (cmp x y <=? 0); [done|].
  rewrite IH. apply Permutation_swap.
Qed.

Lemma array_sort_Permutation l : array_sort cmp l ≡ₚ l.
Proof.
  induction l as [|x l IH]; cbn; [done|].
  rewrite sort_insert_Permutation. by rewrite IH.
Qed.
End sort_lemmas.

(** ** Dictionaries built by a loop

    Overlays compose, and running one twice changes nothing more. *)

Lemma keyBy_lookup_Some {A} (key : A → string) (l : list A) (k : string) (a : A) :
  keyBy key l !! k = Some a → a ∈ l ∧ key a = k.
Proof.
  unfold keyBy.
  assert (∀ m : gmap string A,
    foldl (λ m a, <[key a := a]> m) m l !! k = Some a →
    (a ∈ l ∧ key a = k) ∨ m !! k = Some a) as Hgen.
  { induction l as [|x l IH]; intros m Hm; cbn in Hm; [by right|].
    destruct (IH _ Hm) as [[Hin Hk]|Hx].
    - left. split; [by constructor|done].
    - destruct (decide (key x = k)) as [Heq|Hne].
      + subst k. rewrite lookup_insert_eq in Hx. injection Hx as ->.
        left. split; [constructor|done].
      + rewrite lookup_insert_ne in Hx by done. by right. }
  intros H. destruct (Hgen ∅ H) as [?|Hempty]; [done|].
  by rewrite lookup_empty in Hempty.
Qed.

Lemma keyBy_lookup_None {A} (key : A → string) (l : list A) (k : string) :
  (∀ a, a ∈ l → key a ≠ k) → keyBy key l !! k = None.
Proof.
  intros Hmiss. destruct (keyBy key l !! k) as [a|] eqn:Hk; [|done].
  apply keyBy_lookup_Some in Hk as [Hin Hkey]. by destruct (Hmiss a Hin).
Qed.

Lemma keyBy_lookup_is_Some {A} (key : A → string) (l : list A) (a : A) :
  a ∈ l → is_Some (keyBy key l !! key a).
Proof.
  unfold keyBy.
  assert (∀ m : gmap string A,
    a ∈ l ∨ is_Some (m !! key a) →
    is_Some (foldl (λ m a, <[key a := a]> m) m l !! key a)) as Hgen.
  { induction l as [|x l IH]; intros m [Hin|Hm]; cbn.
    - by inversion Hin.
    - done.
    - apply IH. apply elem_of_cons in Hin as [->|Hin]; [right|by left].
      rewrite lookup_insert_eq. by eexists.
    - apply IH. right. destruct (decide (key x = key a)) as [->|Hne].
      + rewrite lookup_insert_eq. by eexists.
      + by rewrite lookup_insert_ne. }
  intros Hin. apply Hgen. by left.
Qed.

Lemma overlay_id {V} : overlay (λ s : gmap string V, s).
Proof. exists ∅. intros s. by rewrite (left_id_L ∅ (∪)). Qed.

Lemma overlay_compose {V} (g h : gmap string V → gmap string V) :
  overlay g → overlay h → overlay (λ s, h (g s)).
Proof.
  intros [m Hm] [n Hn]. exists (n ∪ m). intros s.
  by rewrite Hn, Hm, (assoc_L (∪)).
Qed.

Lemma overlay_insert {V} (k : string) (v : V) : overlay (λ s, <[k := v]> s).
Proof. exists {[k := v]}. intros s. by rewrite insert_union_singleton_l. Qed.

Lemma overlay_foldl {V A} (step : A → gmap string V → gmap string V) (l : list A) :
  (∀ a, overlay (step a)) → overlay (λ s, foldl (λ m a, step a m) s l).
Proof.
  intros Hstep. induction l as [|a l IH]; cbn; [apply overlay_id|].
  apply (overlay_compose (step a) (λ s, foldl (λ m a, step a m) s l)); auto.
Qed.

Lemma overlay_idemp {V} (g : gmap string V → gmap string V) s :
  overlay g → g (g s) = g s.
Proof.
  intros [m Hm]. by rewrite !Hm, (assoc_L (∪)), (idemp_L (∪)).
Qed.

(** ** Joining tasks *)

Lemma timeline_Permutation {X} (order : list nat) (l : list X) :
  timeline order l ≡ₚ l.
Proof.
  revert order. induction l as [|x l IH]; intros order; cbn; [done|].
  by rewrite <- Permutation_middle, take_drop, IH.
Qed.

(** Every order of settling is the timeline of some list of numbers. *)
Lemma timeline_any_order {X} (l settling : list X) :
  settling ≡ₚ l → ∃ order, timeline order l = settling.
Proof.
  revert settling. induction l as [|x l IH]; intros settling Hperm.
  - apply Permutation_nil_r in Hperm as ->. by exists [].
  - assert (x ∈ settling) as Hin by (rewrite Hperm; constructor).
    apply list_elem_of_split in Hin as (l1 & l2 & ->).
    symmetry in Hperm. apply Permutation_cons_app_inv in Hperm.
    symmetry in Hperm. destruct (IH _ Hperm) as [order Horder].
    exists (length l1 :: order). cbn. rewrite Horder.
    by rewrite take_app_length, drop_app_length.
Qed.

Lemma timeline_fmap {X Y} (f : X → Y) (order : list nat) (l : list X) :
  timeline order (f <$> l) = f <$> timeline order l.
Proof.
  revert order. induction l as [|x l IH]; intros order; cbn; [done|].
  by rewrite IH, fmap_app, fmap_cons, fmap_take, fmap_drop.
Qed.

Lemma imap_pair_snd {X} (l : list X) : (imap pair l).*2 = l.
Proof.
  rewrite fmap_imap. cbn.
  induction l as [|x l IH]; [done|]. cbn. f_equal. exact IH.
Qed.

Lemma imap_pair_fst {X} (l : list X) : (imap pair l).*1 = seq 0 (length l).
Proof.
  rewrite fmap_imap.
  change (imap (λ n _, n) l = seq 0 (length l)).
  assert (∀ k, imap (λ n (_ : X), (k + n)%nat) l = seq k (length l)) as Hgen.
  { induction l as [|x l IH]; intros k; [done|]. cbn. f_equal; [lia|].
    rewrite <- (IH (S k)). apply imap_ext. intros; cbn; lia. }
  apply (Hgen 0%nat).
Qed.

Lemma imap_pair_fmap {X Y} (f : X → Y) (l : list X) :
  imap pair (f <$> l) = prod_map (λ i : nat, i) f <$> imap pair l.
Proof. by rewrite imap_fmap, fmap_imap. Qed.

Lemma imap_pair_elem {X} (l : list X) (i : nat) (x : X) :
  (i, x) ∈ imap pair l ↔ l !! i = Some x.
Proof.
  split.
  - intros Hin. apply elem_of_lookup_imap_1 in Hin as (j & y & [= -> ->] & Hj).
    exact Hj.
  - intros Hi. by apply (elem_of_lookup_imap_2 pair).
Qed.

Lemma runAll_cons {S A} (i : nat) (t : M S A) (rest : list (nat * M S A)) s :
  runAll ((i, t) :: rest) s =
    ((i, (t s).1) :: (runAll rest (t s).2).1, (runAll rest (t s).2).2).
Proof. cbn. destruct (t s) as [r s1]. cbn. by destruct (runAll rest s1). Qed.

Lemma runAll_Forall2 {S A} (settling : list (nat * M S A)) (s : S) :
  Forall2 (λ it ir, it.1 = ir.1 ∧ ∃ s', (it.2 s').1 = ir.2)
          settling (runAll settling s).1.
Proof.
  revert s. induction settling as [|[i t] rest IH]; intros s; [constructor|].
  rewrite runAll_cons. cbn. constructor; [|apply IH]. cbn. eauto.
Qed.

Lemma runAll_fst {S A} (settling : list (nat * M S A)) (s : S) :
  (runAll settling s).1.*1 = settling.*1.
Proof.
  pose proof (runAll_Forall2 settling s) as H.
  induction H as [|it ir l k [Hi _] _ IH]; [done|]. cbn. by rewrite IH, <- Hi.
Qed.

Lemma runAll_preserves {S A B} (f : S → B) (settling : list (nat * M S A)) :
  Forall (λ it, ∀ s, f (it.2 s).2 = f s) settling →
  ∀ s, f (runAll settling s).2 = f s.
Proof.
  induction settling as [|[i t] rest IH]; intros Hall s; [done|].
  apply Forall_cons in Hall as [Ht Hrest].
  rewrite runAll_cons. cbn. rewrite (IH Hrest). apply Ht.
Qed.


Lemma firstError_None {A} (outcomes : list (nat * result A)) :
  firstError outcomes = None ↔ Forall (λ ir, ∃ a, ir.2 = Ok a) outcomes.
Proof.
  induction outcomes as [|[i [a|e]] rest IH]; cbn.
  - split; [constructor|done].
  - rewrite IH. split.
    + intros H. constructor; [by exists a|done].
    + by intros [_ H]%Forall_cons.
  - split; [discriminate|]. intros [[a Ha] _]%Forall_cons. discriminate.
Qed.

(** What the tasks leave behind: one outcome per task, under its
    position, each the outcome of that task on some store. *)
Lemma promiseAll_unfold {S A} (order : list nat) (tasks : list (M S A)) s :
  promiseAll order tasks s =
    (match firstError (runAll (timeline order (imap pair tasks)) s).1 with
     | Some e => Err e
     | None => Ok (omap (settledValue
                           (runAll (timeline order (imap pair tasks)) s).1)
                        (seq 0 (length tasks)))
     end, (runAll (timeline order (imap pair tasks)) s).2).
Proof. unfold promiseAll. by destruct (runAll _ s). Qed.

Lemma promiseAll_outcomes {S A} (order : list nat) (tasks : list (M S A)) s :
  let outcomes := (runAll (timeline order (imap pair tasks)) s).1 in
  NoDup outcomes.*1 ∧
  (∀ i t, tasks !! i = Some t → ∃ s', (i, (t s').1) ∈ outcomes) ∧
  (∀ i r, (i, r) ∈ outcomes → ∃ t s', tasks !! i = Some t ∧ (t s').1 = r).
Proof.
  cbn. pose proof (runAll_Forall2 (timeline order (imap pair tasks)) s) as H.
  split; [|split].
  - rewrite runAll_fst, timeline_Permutation, imap_pair_fst. apply NoDup_seq.
  - intros i t Hi. apply imap_pair_elem in Hi.
    rewrite <- (timeline_Permutation order) in Hi.
    apply list_elem_of_lookup in Hi as [n Hn].
    destruct (Forall2_lookup_l _ _ _ _ _ H Hn) as ([j r] & Hj & Hij & s' & Hr).
    cbn in *. subst. exists s'. apply list_elem_of_lookup. by exists n.
  - intros i r Hin. apply list_elem_of_lookup in Hin as [n Hn].
    destruct (Forall2_lookup_r _ _ _ _ _ H Hn) as ([j t] & Hj & Hij & s' & Hr).
    cbn in *. subst. exists t, s'. split; [|done].
    apply imap_pair_elem. rewrite <- (timeline_Permutation order).
    apply list_elem_of_lookup. by exists n.
Qed.

Lemma Forall2_omap_seq {X Y} (P : X → Y → Prop) (f : nat → option Y)
    (l : list X) (k : nat) :
  (∀ i x, l !! i = Some x → ∃ y, f (k + i)%nat = Some y ∧ P x y) →
  Forall2 P l (omap f (seq k (length l))).
Proof.
  revert k. induction l as [|x l IH]; intros k Hl; [constructor|].
  cbn. destruct (Hl 0%nat x eq_refl) as (y & Hy & Hxy).
  rewrite Nat.add_0_r in Hy. rewrite Hy. constructor; [done|].
  apply IH. intros i x' Hi. destruct (Hl (S i) x' Hi) as (y' & Hy' & Hxy').
  exists y'. split; [|done]. by rewrite <- Hy', Nat.add_succ_r.
Qed.

Lemma promiseAll_Ok {S A} (order : list nat) (tasks : list (M S A))
    (s : S) (l : list A) :
  (promiseAll order tasks s).1 = Ok l →
  Forall2 (λ t a, ∃ s', (t s').1 = Ok a) tasks l.
Proof.
  rewrite promiseAll_unfold. cbn.
  destruct (promiseAll_outcomes order tasks s) as (Hnd & Hall & _).
  destruct (firstError _) as [e|] eqn:Hfirst; [discriminate|].
  intros [= <-]. apply firstError_None in Hfirst.
  apply Forall2_omap_seq. intros i t Hi. cbn.
  destruct (Hall i t Hi) as [s' Hin].
  destruct (proj1 (Forall_forall _ _) Hfirst _ Hin) as [a Ha]. cbn in Ha.
  exists a. split; [|by exists s'].
  unfold settledValue. rewrite Ha in Hin.
  by rewrite (elem_of_list_to_map_1 _ _ _ Hnd Hin).
Qed.

Lemma promiseAll_all_Ok {S A} (order : list nat) (tasks : list (M S A)) :
  Forall (λ t, ∀ s, ∃ a, (t s).1 = Ok a) tasks →
  ∀ s, ∃ l, (promiseAll order tasks s).1 = Ok l.
Proof.
  intros Hok s. rewrite promiseAll_unfold. cbn.
  destruct (promiseAll_outcomes order tasks s) as (_ & _ & Hfrom).
  destruct (firstError _) as [e|] eqn:Hfirst; [|by eexists].
  exfalso. assert (firstError (runAll (timeline order (imap pair tasks)) s).1
                   = None) as Hnone; [|congruence].
  apply firstError_None, Forall_forall. intros [i r] Hin.
  destruct (Hfrom i r Hin) as (t & s' & Hi & <-).
  apply list_elem_of_lookup_2 in Hi.
  exact (proj1 (Forall_forall _ _) Hok t Hi s').
Qed.

Lemma promiseAll_Err {S A} (order : list nat) (tasks : list (M S A))
    (t : M S A) :
  t ∈ tasks → (∀ s, ∃ e, (t s).1 = Err e) →
  ∀ s, ∃ e, (promiseAll order tasks s).1 = Err e.
Proof.
  intros Hin Ht s. rewrite promiseAll_unfold. cbn.
  destruct (promiseAll_outcomes order tasks s) as (_ & Hall & _).
  destruct (firstError _) as [e|] eqn:Hfirst; [by eexists|].
  exfalso. apply firstError_None in Hfirst.
  apply list_elem_of_lookup in Hin as [i Hi].
  destruct (Hall i t Hi) as [s' Hout]. destruct (Ht s') as [e He].
  destruct (proj1 (Forall_forall _ _) Hfirst _ Hout) as [a Ha]. cbn in Ha.
  congruence.
Qed.

Lemma promiseAll_preserves {S A B} (f : S → B) (order : list nat)
    (tasks : list (M S A)) :
  Forall (λ t, ∀ s, f (t s).2 = f s) tasks →
  ∀ s, f (promiseAll order tasks s).2 = f s.
Proof.
  intros Hall s. rewrite promiseAll_unfold. cbn.
  apply runAll_preserves, Forall_forall. intros [i t] Hin. cbn.
  rewrite timeline_Permutation in Hin. apply imap_pair_elem in Hin.
  apply list_elem_of_lookup_2 in Hin.
  exact (proj1 (Forall_forall _ _) Hall t Hin).
Qed.


Lemma promiseAllPure_Ok {A} (order : list nat) (settled : list (result A))
    (l : list A) :
  promiseAllPure order settled = Ok l ↔ Forall2 (λ r a, r = Ok a) settled l.
Proof.
  unfold promiseAllPure.
  assert (∀ k, (promiseAll order (lift <$> settled) ()).1 = Ok k →
               Forall2 (λ r a, r = Ok a) settled k) as Hto.
  { intros k H. apply promiseAll_Ok, Forall2_fmap_l in H.
    eapply Forall2_impl; [exact H|]. cbn. by intros r a [s' Hs']. }
  split; [apply Hto|]. intros Hall.
  destruct (promiseAll_all_Ok (S := ()) order (lift <$> settled)) with (s := ())
    as [k Hk].
  { apply Forall_fmap, Forall_forall. intros r Hin [].
    apply list_elem_of_lookup in Hin as [i Hi].
    destruct (Forall2_lookup_l _ _ _ _ _ Hall Hi) as (a & _ & ->).
    by exists a. }
  rewrite Hk. f_equal. apply Hto in Hk.
  clear -Hall Hk. revert k Hk.
  induction Hall as [|r a rs l Hr _ IH]; intros k Hk.
  - by inversion Hk.
  - inversion Hk as [|r' a' rs' k' Hr' Hrest]; subst. f_equal; [congruence|].
    by apply IH.
Qed.

Lemma promiseAllPure_fmap_Ok {A B} (order : list nat) (f : A → result B)
    (l : list A) (k : list B) :
  promiseAllPure order (f <$> l) = Ok k ↔ Forall2 (λ x y, f x = Ok y) l k.
Proof. by rewrite promiseAllPure_Ok, Forall2_fmap_l. Qed.

Lemma steady_idemp {V A} (t : M (gmap string V) A) s s' :
  steady t → (t s).1 = (t s').1 ∧ t (t s).2 = t s.
Proof.
  intros (r & g & Hg & Ht). rewrite (Ht s), (Ht s'). cbn.
  split; [done|]. by rewrite (Ht (g s)), overlay_idemp.
Qed.

Lemma NoDup_fmap_elem_inj {A B} (f : A → B) (l : list A) (x y : A) :
  NoDup (f <$> l) → x ∈ l → y ∈ l → f x = f y → x = y.
Proof.
  induction l as [|a l IH]; cbn; intros Hnd Hx Hy Hf; [by inversion Hx|].
  apply NoDup_cons in Hnd as [Ha Hnd].
  apply elem_of_cons in Hx as [->|Hx]; apply elem_of_cons in Hy as [->|Hy];
    try done.
  - exfalso. apply Ha. rewrite Hf. by apply list_elem_of_fmap_2.
  - exfalso. apply Ha. rewrite <- Hf. by apply list_elem_of_fmap_2.
  - by apply IH.
Qed.

(** ** The permalink to sidebar dictionary *)

Section permalinkToSidebar.
Variable docsOrder : gmap string OrderNode.

Local Abbreviation build := (buildPermalinkToSidebar docsOrder).
Local Abbreviation named := (λ d : DocMetadata,
  truthy (docSidebarName docsOrder (id (base d))) = true).

Lemma build_snoc l d :
  build (l ++ [d]) =
    match docSidebarName docsOrder (id (base d)) with
    | Some name =>
        if truthy (Some name) then <[permalink (base d) := name]> (build l)
        else build l
    | None => build l
    end.
Proof. unfold buildPermalinkToSidebar. by rewrite foldl_snoc. Qed.

Lemma truthy_Some s : truthy (Some s) = true ↔ s ≠ "".
Proof. cbn. rewrite negb_true_iff. by destruct (String.eqb_spec s ""). Qed.

Lemma build_lookup_Some l p s :
  build l !! p = Some s →
  ∃ d, d ∈ l ∧ permalink (base d) = p ∧
       docSidebarName docsOrder (id (base d)) = Some s ∧ s ≠ "".
Proof.
  induction l as [|d l IH] using rev_ind;
    [unfold buildPermalinkToSidebar; cbn; by rewrite lookup_empty|].
  rewrite build_snoc. intros Hp.
  assert (build l !! p = Some s → ∃ d0, d0 ∈ l ++ [d] ∧ permalink (base d0) = p ∧
            docSidebarName docsOrder (id (base d0)) = Some s ∧ s ≠ "") as Hold.
  { intros H. destruct (IH H) as (d0 & Hin & ?). exists d0.
    split; [|done]. apply elem_of_app. by left. }
  destruct (docSidebarName docsOrder (id (base d))) as [name|] eqn:Hname; [|auto].
  destruct (truthy (Some name)) eqn:Ht; [|auto].
  destruct (decide (permalink (base d) = p)) as [Heq|Hne].
  - subst p. rewrite lookup_insert_eq in Hp. injection Hp as ->.
    exists d. repeat split; [|done|by apply truthy_Some].
    apply elem_of_app. right. constructor.
  - rewrite lookup_insert_ne in Hp by done. auto.
Qed.

Lemma build_lookup_elem l d s :
  NoDup ((permalink ∘ base) <$> l) →
  d ∈ l → docSidebarName docsOrder (id (base d)) = Some s → s ≠ "" →
  build l !! permalink (base d) = Some s.
Proof.
  induction l as [|x l IH] using rev_ind; intros Hnd Hin Hs Hne;
    [by inversion Hin|].
  rewrite fmap_app in Hnd. apply NoDup_app in Hnd as (Hnd & Hdisj & _).
  rewrite build_snoc. apply elem_of_app in Hin as [Hin|Hin].
  - assert (permalink (base x) ≠ permalink (base d)) as Hpx.
    { intros Heq. apply (Hdisj (permalink (base d))).
      - by apply (list_elem_of_fmap_2 (permalink ∘ base)).
      - cbn. rewrite <- Heq. constructor. }
    destruct (docSidebarName docsOrder (id (base x))) as [name|]; [|by apply IH].
    destruct (truthy (Some name)); [|by apply IH].
    rewrite lookup_insert_ne by done. by apply IH.
  - apply list_elem_of_singleton in Hin as ->. rewrite Hs.
    apply truthy_Some in Hne. rewrite Hne. apply lookup_insert_eq.
Qed.

End permalinkToSidebar.

(** ** One call of [addNavData] *)

Lemma navLink_Ok_Some docsById navId link :
  navLink docsById navId = Ok (Some link) →
  ∃ i, navId = Some i ∧ i ≠ "" ∧
    match docsById !! i with
    | Some neighbor =>
        link = {| nav_title := Some (title neighbor);
                  nav_permalink := Some (permalink neighbor) |}
    | None =>
        i ∈ objectPrototypeKeys ∧
        link = {| nav_title := None; nav_permalink := None |}
    end.
Proof.
  unfold navLink, toDocNavLink. destruct navId as [i|]; [|discriminate].
  cbn. destruct (String.eqb_spec i "") as [->|Hne]; cbn; [discriminate|].
  destruct (docsById !! i) as [d|] eqn:Hd; cbn.
  - intros [= <-]. exists i. by rewrite Hd.
  - case_bool_decide as Hkey; cbn; [|discriminate].
    intros [= <-]. exists i. by rewrite Hd.
Qed.

Lemma addNavData_Ok_inv docsById docsOrder doc d :
  addNavData docsById docsOrder doc = Ok d →
  let node := default emptyOrderNode (docsOrder !! id doc) in
  base d = doc ∧ sidebar d = o_sidebar node ∧
  navLink docsById (o_previous node) = Ok (previous d) ∧
  navLink docsById (o_next node) = Ok (next d).
Proof.
  unfold addNavData. cbn.
  destruct (navLink docsById (o_previous _)) as [p|e]; cbn; [|discriminate].
  destruct (navLink docsById (o_next _)) as [n|e]; cbn; [|discriminate].
  intros [= <-]. cbn. done.
Qed.

Lemma addNavData_no_entry docsById docsOrder doc :
  docsOrder !! id doc = None →
  addNavData docsById docsOrder doc =
    Ok {| base := doc; sidebar := None; previous := None; next := None |}.
Proof. intros H. unfold addNavData. rewrite H. reflexivity. Qed.

Lemma mapM_addNavData_base docsById docsOrder docs nav :
  mapM (addNavData docsById docsOrder) docs = Ok nav → base <$> nav = docs.
Proof.
  rewrite mapM_Ok_Forall2. induction 1 as [|x y l k Hx _ IH]; [done|].
  cbn. apply addNavData_Ok_inv in Hx as (-> & _). by rewrite IH.
Qed.

(** ** One call of [loadVersion] *)

Section plugin_properties.
Context {Sidebars DocFile : Type} {plugin : Closure Sidebars DocFile}.

Local Abbreviation byId :=
  (λ a b : DocMetadata, localeCompare (id (base a)) (id (base b))).

Lemma loadVersion_Ok_inv vm st lv :
  (loadVersion vm st).1 = Ok lv →
  ∃ docs sb nav mainDoc,
    loadVersionDocs vm = Ok docs ∧
    loadSidebars [sidebarPath vm] = Ok sb ∧
    mapM (addNavData (keyBy id docs) (createOrder sb)) docs = Ok nav ∧
    findMainDoc docs = Some mainDoc ∧
    lv = {| metadata := vm;
            versionPath := normalizeUrl [baseUrl; routeBasePath options;
                             getVersionPathPart (versionName vm)];
            mainDocId := unversionedId mainDoc;
            sidebars := sb;
            permalinkToSidebar :=
              buildPermalinkToSidebar (createOrder sb) (array_sort byId nav);
            docs := nav |} ∧
    (loadVersion vm st).2 = recordPermalinks (array_sort byId nav) st.
Proof.
  unfold loadVersion, mbind, M_bind, lift, modify, mret, M_ret.
  destruct (loadVersionDocs vm) as [docs|e]; [|discriminate].
  destruct (loadSidebars _) as [sb|e]; [|discriminate].
  destruct (mapM _ docs) as [nav|e] eqn:Hnav; [|discriminate].
  destruct (findMainDoc docs) as [mainDoc|] eqn:Hmain; [|discriminate].
  cbn. intros [= <-]. exists docs, sb, nav, mainDoc. repeat split; assumption.
Qed.

(** The value returned (or the error thrown) does not depend on the
    side table, and the side table is only overlaid. *)
Lemma loadVersion_steady vm : steady (loadVersion vm).
Proof.
  unfold steady.
  unfold loadVersion, mbind, M_bind, lift, modify, mret, M_ret.
  destruct (loadVersionDocs vm) as [docs|e];
    [|exists (Err e), (λ s, s); split; [apply overlay_id|done]].
  destruct (loadSidebars _) as [sb|e];
    [|exists (Err e), (λ s, s); split; [apply overlay_id|done]].
  destruct (mapM _ docs) as [nav|e];
    [|exists (Err e), (λ s, s); split; [apply overlay_id|done]].
  assert (overlay (recordPermalinks (array_sort byId nav))) as Hov.
  { unfold recordPermalinks.
    apply (overlay_foldl (λ d : DocMetadata,
             insert (source (base d)) (permalink (base d)))).
    intros d. apply overlay_insert. }
  destruct (findMainDoc docs) as [mainDoc|]; eauto.
Qed.

Lemma find_Some_split {A} (f : A → bool) (l : list A) (x : A) :
  List.find f l = Some x →
  ∃ pre post, l = pre ++ x :: post ∧ f x = true ∧ Forall (λ y, f y = false) pre.
Proof.
  induction l as [|y l IH]; cbn; [discriminate|].
  destruct (f y) eqn:Hy.
  - intros [= ->]. exists [], l. by repeat split.
  - intros Hx. destruct (IH Hx) as (pre & post & -> & Hfx & Hpre).
    exists (y :: pre), post. repeat split; [done|by constructor].
Qed.

Lemma find_None_Forall {A} (f : A → bool) (l : list A) :
  List.find f l = None → Forall (λ y, f y = false) l.
Proof.
  induction l as [|y l IH]; cbn; [constructor|].
  destruct (f y) eqn:Hy; [discriminate|]. intros H. constructor; auto.
Qed.

Lemma isMainDoc_true doc :
  isMainDoc doc = true ↔ matchesHome doc.
Proof.
  unfold isMainDoc, matchesHome.
  rewrite orb_true_iff, bool_decide_eq_true, String.eqb_eq. done.
Qed.

Lemma isMainDoc_false doc :
  isMainDoc doc = false ↔ ¬ matchesHome doc.
Proof. rewrite <- isMainDoc_true. by destruct (isMainDoc doc). Qed.

(** C1 (as amended).  The main document of a loaded version is the first
    document, in the order the documents were read, whose unversioned id
    is the configured home id or whose slug is exactly [/] (whichever of
    the two such a document satisfies); when no document is of that
    kind it is the first document read.  [mainDocId] is the unversioned
    id of that document. *)
Theorem mainDoc_first_home_match_else_first_read vm st lv docsRead :
  (loadVersion vm st).1 = Ok lv →
  loadVersionDocs vm = Ok docsRead →
  ∃ pre doc post,
    docsRead = pre ++ doc :: post ∧
    mainDocId lv = unversionedId doc ∧
    Forall (λ d, ¬ matchesHome d) pre ∧
    (matchesHome doc ∨
     (pre = [] ∧ Forall (λ d, ¬ matchesHome d) post)).
Proof.
  intros Hlv Hdocs.
  apply loadVersion_Ok_inv in Hlv
    as (docs' & sb & nav & mainDoc & Hdocs' & _ & _ & Hmain & -> & _).
  rewrite Hdocs in Hdocs'. injection Hdocs' as <-. cbn.
  unfold findMainDoc in Hmain.
  destruct (List.find (isMainDoc) docsRead) as [d|] eqn:Hfind.
  - injection Hmain as ->.
    apply find_Some_split in Hfind as (pre & post & -> & Hd & Hpre).
    exists pre, mainDoc, post. repeat split.
    + eapply Forall_impl; [exact Hpre|]. intros x. by rewrite isMainDoc_false.
    + left. by apply isMainDoc_true.
  - apply find_None_Forall in Hfind.
    destruct docsRead as [|d post]; [discriminate|]. injection Hmain as ->.
    exists [], mainDoc, post. repeat split; [constructor|].
    right. split; [done|]. apply Forall_cons in Hfind as [_ Hpost].
    eapply Forall_impl; [exact Hpost|]. intros x. by rewrite isMainDoc_false.
Qed.

(** C3.  A document whose id has no entry in the sidebar order gets no
    sidebar, no previous and no next link from [addNavData] (the three
    fields are undefined), and it is still a member of the document
    collection of the loaded version, with exactly those empty fields;
    conversely every exported document without an order entry has the
    three fields undefined. *)
Theorem doc_outside_sidebars_kept_without_nav vm st lv docsRead doc :
  (loadVersion vm st).1 = Ok lv →
  loadVersionDocs vm = Ok docsRead →
  doc ∈ docsRead →
  createOrder (sidebars lv) !! id doc = None →
  addNavData (keyBy id docsRead) (createOrder (sidebars lv)) doc
    = Ok {| base := doc; sidebar := None; previous := None; next := None |} ∧
  {| base := doc; sidebar := None; previous := None; next := None |} ∈ docs lv ∧
  ∀ d, d ∈ docs lv → base d = doc →
       sidebar d = None ∧ previous d = None ∧ next d = None.
Proof.
  intros Hlv Hdocs Hin Hnone.
  apply loadVersion_Ok_inv in Hlv
    as (docs' & sb & nav & mainDoc & Hdocs' & _ & Hnav & _ & -> & _).
  rewrite Hdocs in Hdocs'. injection Hdocs' as <-. cbn in *.
  pose proof (addNavData_no_entry (keyBy id docsRead) _ doc Hnone) as Hadd.
  apply mapM_Ok_Forall2 in Hnav.
  split; [exact Hadd|]. split.
  - apply list_elem_of_lookup in Hin as [i Hi].
    destruct (Forall2_lookup_l _ _ _ _ _ Hnav Hi) as (d & Hd & Hfd).
    rewrite Hadd in Hfd. injection Hfd as <-.
    apply list_elem_of_lookup. by exists i.
  - intros d Hd Hbase.
    apply list_elem_of_lookup in Hd as [i Hi].
    destruct (Forall2_lookup_r _ _ _ _ _ Hnav Hi) as (x & Hx & Hfx).
    pose proof (addNavData_Ok_inv _ _ _ _ Hfx) as (Hb & _).
    rewrite Hbase in Hb. subst x. rewrite Hadd in Hfx. by injection Hfx as <-.
Qed.



(** C9.  The documents exported by a loaded version are, in the same
    order, the documents that were read for it, each extended with its
    navigation fields: no sort is applied to the exported sequence. *)
Theorem loaded_docs_keep_read_order vm st lv docsRead :
  (loadVersion vm st).1 = Ok lv →
  loadVersionDocs vm = Ok docsRead →
  base <$> docs lv = docsRead.
Proof.
  intros Hlv Hdocs.
  apply loadVersion_Ok_inv in Hlv
    as (docs' & sb & nav & mainDoc & Hdocs' & _ & Hnav & _ & -> & _).
  rewrite Hdocs in Hdocs'. injection Hdocs' as <-. cbn.
  by apply mapM_addNavData_base in Hnav.
Qed.

(** C10.  When no document is read for a version, [loadVersion] never
    returns a loaded version; once the sidebars are loaded it throws the
    type error raised by reading [unversionedId] of an undefined main
    document, leaving the side table as it was. *)
Theorem loadVersion_empty_docs_throws vm st :
  loadVersionDocs vm = Ok [] →
  (∀ lv, (loadVersion vm st).1 ≠ Ok lv) ∧
  (∃ e, (loadVersion vm st).1 = Err e) ∧
  (∀ sb, loadSidebars [sidebarPath vm] = Ok sb →
     loadVersion vm st =
       (Err (TypeError "Cannot read property 'unversionedId' of undefined"),
        st)).
Proof.
  intros Hdocs.
  assert (∀ sb, loadSidebars [sidebarPath vm] = Ok sb →
     loadVersion vm st =
       (Err (TypeError "Cannot read property 'unversionedId' of undefined"),
        st)) as Hthrow.
  { intros sb Hsb.
    unfold loadVersion, mbind, M_bind, lift, modify, mret, M_ret.
    rewrite Hdocs, Hsb. reflexivity. }
  split; [|split; [|exact Hthrow]].
  - intros lv Hlv.
    apply loadVersion_Ok_inv in Hlv
      as (docs' & sb & nav & mainDoc & Hdocs' & _ & _ & Hmain & _).
    rewrite Hdocs in Hdocs'. injection Hdocs' as <-. discriminate.
  - destruct (loadSidebars [sidebarPath vm]) as [sb|e] eqn:Hsb.
    + rewrite (Hthrow sb) by done. eauto.
    + exists e. unfold loadVersion, mbind, M_bind, lift.
      by rewrite Hdocs, Hsb.
Qed.

(** ** The whole load cycle *)



(** C7.  If [loadVersion] fails for some version of the version set,
    [loadContent] fails: it yields an error and no content, whatever
    the other versions produced. *)
Theorem loadContent_all_or_nothing vm st0 e0 st :
  vm ∈ versionsMetadata →
  (loadVersion vm st0).1 = Err e0 →
  (∃ e, (loadContent st).1 = Err e) ∧
  (∀ content, (loadContent st).1 ≠ Ok content).
Proof.
  intros Hin Hfail.
  assert (∃ e, (loadContent st).1 = Err e) as [e He].
  { destruct (promiseAll_Err loadOrder (map loadVersion versionsMetadata)
                (loadVersion vm)) with (s := st) as [e He].
    - by apply list_elem_of_fmap_2.
    - intros s. exists e0. rewrite <- Hfail.
      apply steady_idemp, loadVersion_steady.
    - exists e. unfold loadContent, mbind, M_bind.
      destruct (promiseAll _ _ st) as [[vs|e'] s']; cbn in *; congruence. }
  split; [by exists e|]. intros content. by rewrite He.
Qed.

(** ** Publishing the global data *)

Context {GlobalVersion : Type} {publishing : Publishing Sidebars GlobalVersion}.

(** C8.  When [contentLoaded] completes, global data has been set; its
    [latestVersionName] is the latest version name of the versioning
    environment, so a loaded version is the latest one exactly when the
    published name is its name (and with distinct version names there is
    at most one such version); its [versions] field is the list of the
    summaries of the loaded versions, one per loaded version and in the
    same order. *)
Theorem contentLoaded_globalData content actions :
  (contentLoaded content actions).1 = Ok () →
  ∃ data,
    globalData (contentLoaded content actions).2 = Some data ∧
    latestVersionName data = latestVersion ∧
    (∀ lv, lv ∈ loadedVersions content →
       (isLast (metadata lv) = true ↔
        latestVersionName data = Some (versionName (metadata lv)))) ∧
    (NoDup ((versionName ∘ metadata) <$> loadedVersions content) →
     ∀ lv1 lv2, lv1 ∈ loadedVersions content → lv2 ∈ loadedVersions content →
       isLast (metadata lv1) = true →
       isLast (metadata lv2) = true → lv1 = lv2) ∧
    versions data = toGlobalDataVersion <$> loadedVersions content ∧
    length (versions data) = length (loadedVersions content).
Proof.
  unfold contentLoaded, mbind, M_bind, setGlobalData, modify.
  destruct (promiseAll _ _ actions) as [[u|e] a1]; [|discriminate].
  intros _. eexists. split; [reflexivity|]. cbn.
  split; [done|]. split; [|split; [|split]].
  - intros lv _. unfold isLast. rewrite bool_decide_eq_true. by split.
  - intros Hnd lv1 lv2 H1 H2. unfold isLast. rewrite !bool_decide_eq_true.
    intros E1 E2.
    apply (NoDup_fmap_elem_inj (versionName ∘ metadata) _ _ _ Hnd H1 H2).
    cbn. congruence.
  - done.
  - apply length_fmap.
Qed.

End plugin_properties.

(** C2.  [getVersionPathPart] returns the empty string for the latest
    version, the fragment [next] for the unreleased version (when it is
    not the latest one) and the name itself for any other version; on
    the site with versions [2.0] (latest) and [1.0] and the unreleased
    version, the fragments are empty, [1.0] and [next]. *)
Theorem getVersionPathPart_fragments :
  (∀ Sidebars DocFile (plugin : Closure Sidebars DocFile) version,
     latestVersion = Some version → getVersionPathPart version = "") ∧
  (∀ Sidebars DocFile (plugin : Closure Sidebars DocFile) version,
     latestVersion ≠ Some version → version = CURRENT_VERSION_NAME →
     getVersionPathPart version = "next") ∧
  (∀ Sidebars DocFile (plugin : Closure Sidebars DocFile) version,
     latestVersion ≠ Some version → version ≠ CURRENT_VERSION_NAME →
     getVersionPathPart version = version) ∧
  getVersionPathPart (plugin := Site.site) <$> ["2.0"; "1.0"; "current"]
    = [""; "1.0"; "next"].
Proof.
  repeat split; try reflexivity;
    intros Sidebars DocFile plugin version; unfold getVersionPathPart.
  - intros H. by rewrite decide_True.
  - intros H ->. by rewrite decide_False, decide_True.
  - intros H H'. by rewrite !decide_False.
Qed.

(** * The properties on the small site *)

(** On version [2.0] the main document is [intro], found by its slug
    after [setup], which is of neither kind. *)
Lemma mainDoc_first_home_match_else_first_read_witness :
  (loadVersion (plugin := Site.site) (Site.mkVersion "2.0") ∅).1
    = Ok Site.loaded20 ∧
  loadVersionDocs (plugin := Site.site) (Site.mkVersion "2.0")
    = Ok Site.docs20 ∧
  ∃ pre doc post,
    Site.docs20 = pre ++ doc :: post ∧
    mainDocId Site.loaded20 = unversionedId doc ∧
    Forall (λ d, ¬ matchesHome (plugin := Site.site) d) pre ∧
    (matchesHome (plugin := Site.site) doc ∨
     (pre = [] ∧ Forall (λ d, ¬ matchesHome (plugin := Site.site) d) post)).
Proof.
  assert ((loadVersion (plugin := Site.site) (Site.mkVersion "2.0") ∅).1
          = Ok Site.loaded20) as Hlv by by_eval.
  assert (loadVersionDocs (plugin := Site.site) (Site.mkVersion "2.0")
          = Ok Site.docs20) as Hdocs by by_eval.
  split; [exact Hlv|]. split; [exact Hdocs|].
  exact (mainDoc_first_home_match_else_first_read (plugin := Site.site)
           (Site.mkVersion "2.0") ∅ Site.loaded20 Site.docs20 Hlv Hdocs).
Defined.

(** C1, as the claim words it, fails on the code.  With the home id
    [intro] configured, the unreleased version has [intro] before the
    document with slug [/]: the code chooses [intro], the claim the
    document with slug [/].  Version [1.0] has neither: the code chooses
    [b], the first document read, the claim [a], the first after a sort
    by id. *)
Lemma mainDoc_not_slug_first_nor_sorted_by_id :
  (loadVersionDocs (plugin := Site.siteWithHome) (Site.mkVersion "current")
     = Ok Site.docsCurrent ∧
   mainDocId <$> (loadVersion (plugin := Site.siteWithHome)
                    (Site.mkVersion "current") ∅).1 = Ok "intro" ∧
   unversionedId <$> spec_mainDoc (plugin := Site.siteWithHome)
                       Site.docsCurrent = Some "welcome") ∧
  (loadVersionDocs (plugin := Site.site) (Site.mkVersion "1.0")
     = Ok Site.docs10 ∧
   mainDocId <$> (loadVersion (plugin := Site.site)
                    (Site.mkVersion "1.0") ∅).1 = Ok "b" ∧
   unversionedId <$> spec_mainDoc (plugin := Site.site) Site.docs10
     = Some "a").
Proof. repeat split; by_eval. Qed.



(** With [2.0] latest: no fragment for [2.0], [next] for the unreleased
    version, its own name for [1.0]. *)
Lemma getVersionPathPart_fragments_witness :
  getVersionPathPart (plugin := Site.site) "2.0" = "" ∧
  getVersionPathPart (plugin := Site.site) CURRENT_VERSION_NAME = "next" ∧
  getVersionPathPart (plugin := Site.site) "1.0" = "1.0".
Proof.
  destruct getVersionPathPart_fragments as (Hlatest & Hcurrent & Hother & _).
  split; [|split].
  - apply Hlatest. reflexivity.
  - apply Hcurrent; [discriminate|reflexivity].
  - apply Hother; discriminate.
Defined.

(** On version [2.0] the document [faq] is in no sidebar: it is exported
    with no navigation field. *)
Lemma doc_outside_sidebars_kept_without_nav_witness :
  (loadVersion (plugin := Site.site) (Site.mkVersion "2.0") ∅).1
    = Ok Site.loaded20 ∧
  loadVersionDocs (plugin := Site.site) (Site.mkVersion "2.0")
    = Ok Site.docs20 ∧
  Site.mkDoc "2.0" "faq" "/faq" ∈ Site.docs20 ∧
  createOrder (Closure := Site.site) (sidebars Site.loaded20)
    !! id (Site.mkDoc "2.0" "faq" "/faq") = None ∧
  Site.unlinked (Site.mkDoc "2.0" "faq" "/faq") ∈ docs Site.loaded20.
Proof.
  assert ((loadVersion (plugin := Site.site) (Site.mkVersion "2.0") ∅).1
          = Ok Site.loaded20) as Hlv by by_eval.
  assert (loadVersionDocs (plugin := Site.site) (Site.mkVersion "2.0")
          = Ok Site.docs20) as Hdocs by by_eval.
  assert (Site.mkDoc "2.0" "faq" "/faq" ∈ Site.docs20) as Hin by by_decide.
  assert (createOrder (Closure := Site.site) (sidebars Site.loaded20)
            !! id (Site.mkDoc "2.0" "faq" "/faq") = None) as Hnone by by_eval.
  repeat (split; [assumption|]).
  exact (proj1 (proj2
    (doc_outside_sidebars_kept_without_nav (plugin := Site.site)
       (Site.mkVersion "2.0") ∅ Site.loaded20 Site.docs20 _
       Hlv Hdocs Hin Hnone))).
Defined.



(** Version [1.0] is read as [b], [a] and exported as [b], [a]. *)
Lemma loaded_docs_keep_read_order_witness :
  (loadVersion (plugin := Site.site) (Site.mkVersion "1.0") ∅).1
    = Ok Site.loaded10 ∧
  loadVersionDocs (plugin := Site.site) (Site.mkVersion "1.0")
    = Ok Site.docs10 ∧
  unversionedId <$> Site.docs10 = ["b"; "a"] ∧
  base <$> docs Site.loaded10 = Site.docs10.
Proof.
  assert ((loadVersion (plugin := Site.site) (Site.mkVersion "1.0") ∅).1
          = Ok Site.loaded10) as Hlv by by_eval.
  assert (loadVersionDocs (plugin := Site.site) (Site.mkVersion "1.0")
          = Ok Site.docs10) as Hdocs by by_eval.
  repeat (split; [assumption|]). split; [reflexivity|].
  exact (loaded_docs_keep_read_order (plugin := Site.site)
           (Site.mkVersion "1.0") ∅ Site.loaded10 Site.docs10 Hlv Hdocs).
Defined.

(** The version named [empty] has no document: loading it throws. *)
Lemma loadVersion_empty_docs_throws_witness :
  loadVersionDocs (plugin := Site.site) (Site.mkVersion "empty") = Ok [] ∧
  loadSidebars (Closure := Site.site) [sidebarPath (Site.mkVersion "empty")]
    = Ok ∅ ∧
  loadVersion (plugin := Site.site) (Site.mkVersion "empty") ∅ =
    (Err (TypeError "Cannot read property 'unversionedId' of undefined"), ∅).
Proof.
  assert (loadVersionDocs (plugin := Site.site) (Site.mkVersion "empty")
          = Ok []) as Hdocs by by_eval.
  assert (loadSidebars (Closure := Site.site)
            [sidebarPath (Site.mkVersion "empty")] = Ok ∅) as Hsb by by_eval.
  repeat (split; [assumption|]).
  exact (proj2 (proj2
    (loadVersion_empty_docs_throws (plugin := Site.site)
       (Site.mkVersion "empty") ∅ Hdocs)) ∅ Hsb).
Defined.

(** A version set that contains the empty version: the load cycle
    fails. *)
Lemma loadContent_all_or_nothing_witness :
  Site.mkVersion "empty" ∈ versionsMetadata (Closure := Site.brokenSite) ∧
  (loadVersion (plugin := Site.brokenSite) (Site.mkVersion "empty") ∅).1 =
    Err (TypeError "Cannot read property 'unversionedId' of undefined") ∧
  (∃ e, (loadContent (plugin := Site.brokenSite) ∅).1 = Err e) ∧
  (∀ content, (loadContent (plugin := Site.brokenSite) ∅).1 ≠ Ok content).
Proof.
  assert (Site.mkVersion "empty" ∈ versionsMetadata (Closure := Site.brokenSite))
    as Hin by by_decide.
  assert ((loadVersion (plugin := Site.brokenSite) (Site.mkVersion "empty") ∅).1
          = Err (TypeError "Cannot read property 'unversionedId' of undefined"))
    as Hfail by by_eval.
  repeat (split; [assumption|]).
  exact (loadContent_all_or_nothing (plugin := Site.brokenSite)
           (Site.mkVersion "empty") ∅ _ ∅ Hin Hfail).
Defined.

(** The three versions load, and the global data published names [2.0]
    and holds three summaries. *)
Lemma contentLoaded_globalData_witness :
  (loadContent (plugin := Site.site) ∅).1 = Ok Site.content ∧
  (contentLoaded (plugin := Site.site) (publishing := Site.publishing)
     Site.content Site.noActions).1 = Ok () ∧
  ∃ data,
    globalData (contentLoaded (plugin := Site.site)
                  (publishing := Site.publishing)
                  Site.content Site.noActions).2 = Some data ∧
    latestVersionName data = Some "2.0" ∧
    versions data = ["current"; "2.0"; "1.0"].
Proof.
  assert ((loadContent (plugin := Site.site) ∅).1 = Ok Site.content)
    as Hcontent by by_eval.
  assert ((contentLoaded (plugin := Site.site) (publishing := Site.publishing)
             Site.content Site.noActions).1 = Ok ()) as Hdone by by_eval.
  repeat (split; [assumption|]).
  destruct (contentLoaded_globalData (plugin := Site.site)
              (publishing := Site.publishing) Site.content Site.noActions Hdone)
    as (data & Hset & Hlatest & _ & _ & Hversions & _).
  exists data. split; [exact Hset|]. split; [exact Hlatest|].
  rewrite Hversions. by_eval.
Defined.

(** * Further properties *)

(** ** Helper facts *)

Section mapM_more.
Context {A B : Type} (f : A → result B).

Lemma mapM_Err_uniform l x e :
  (∀ y e', f y = Err e' → e' = e) → x ∈ l → f x = Err e → mapM f l = Err e.
Proof.
  intros Huni Hin Hx. induction l as [|y l IH]; [by inversion Hin|].
  cbn. destruct (f y) as [b|e'] eqn:Hy; cbn.
  - apply elem_of_cons in Hin as [->|Hin]; [congruence|].
    by rewrite (IH Hin).
  - by rewrite (Huni _ _ Hy).
Qed.

Lemma mapM_Forall_Ok l :
  Forall (λ x, ∃ y, f x = Ok y) l → ∃ k, mapM f l = Ok k.
Proof.
  induction 1 as [|x l [y Hy] _ [k Hk]]; [by exists []|].
  exists (y :: k). by apply mapM_cons_Ok.
Qed.
End mapM_more.

Lemma navLink_Ok_None docsById navId :
  navLink docsById navId = Ok None → truthy navId = false.
Proof.
  unfold navLink. destruct navId as [i|]; [|done].
  destruct (truthy (Some i)); [|done].
  destruct (toDocNavLink docsById i); cbn; discriminate.
Qed.

Lemma navLink_Err docsById navId e :
  navLink docsById navId = Err e →
  e = TypeError "Cannot read property 'title' of undefined".
Proof.
  unfold navLink, toDocNavLink. destruct navId as [i|]; [|discriminate].
  destruct (truthy (Some i)); [|discriminate].
  destruct (docsById !! i); cbn; [discriminate|].
  case_bool_decide; cbn; [discriminate|]. by intros [= <-].
Qed.

Lemma navLink_dangling docsById i :
  i ≠ "" → docsById !! i = None → i ∉ objectPrototypeKeys →
  navLink docsById (Some i)
    = Err (TypeError "Cannot read property 'title' of undefined").
Proof.
  intros Hne Hnone Hkey. unfold navLink, toDocNavLink.
  apply truthy_Some in Hne. rewrite Hne, Hnone.
  by rewrite bool_decide_eq_false_2.
Qed.

Lemma navLink_resolved docsById navId :
  (∀ i, navId = Some i → i ≠ "" → is_Some (docsById !! i)) →
  ∃ link, navLink docsById navId = Ok link.
Proof.
  intros Hres. unfold navLink, toDocNavLink.
  destruct navId as [i|]; [|by eexists].
  destruct (truthy (Some i)) eqn:Ht; [|by eexists].
  apply truthy_Some in Ht. destruct (Hres i eq_refl Ht) as [d ->].
  cbn. by eexists.
Qed.

Lemma addNavData_Err docsById docsOrder doc e :
  addNavData docsById docsOrder doc = Err e →
  e = TypeError "Cannot read property 'title' of undefined".
Proof.
  unfold addNavData. cbn.
  destruct (navLink docsById (o_previous _)) as [p|e'] eqn:Hp; cbn.
  - destruct (navLink docsById (o_next _)) as [n|e'] eqn:Hn; cbn;
      [discriminate|].
    intros [= <-]. by eapply navLink_Err.
  - intros [= <-]. by eapply navLink_Err.
Qed.

Lemma sidebar_docSidebarName (docsOrder : gmap string OrderNode) docId :
  o_sidebar (default emptyOrderNode (docsOrder !! docId))
    = docSidebarName docsOrder docId.
Proof. unfold docSidebarName. by destruct (docsOrder !! docId). Qed.

(** ** The side table *)

Lemma recordPermalinks_snoc l d (st : gmap string string) :
  recordPermalinks (l ++ [d]) st
    = <[source (base d) := permalink (base d)]> (recordPermalinks l st).
Proof. unfold recordPermalinks. by rewrite foldl_snoc. Qed.

Lemma recordPermalinks_other l (st : gmap string string) k :
  (∀ d, d ∈ l → source (base d) ≠ k) → recordPermalinks l st !! k = st !! k.
Proof.
  induction l as [|d l IH] using rev_ind; intros Hk; [done|].
  rewrite recordPermalinks_snoc. unfold SourceToPermalink in *.
  rewrite lookup_insert_ne.
  - apply IH. intros d' Hd'. apply Hk, elem_of_app. by left.
  - apply Hk, elem_of_app. right. constructor.
Qed.

Lemma recordPermalinks_elem l (st : gmap string string) d :
  d ∈ l →
  ∃ d', d' ∈ l ∧ source (base d') = source (base d) ∧
        recordPermalinks l st !! source (base d) = Some (permalink (base d')).
Proof.
  induction l as [|x l IH] using rev_ind; intros Hin; [by inversion Hin|].
  rewrite recordPermalinks_snoc. unfold SourceToPermalink in *.
  destruct (decide (source (base x) = source (base d))) as [Heq|Hne].
  - exists x. rewrite <- Heq, lookup_insert_eq.
    split; [|done]. apply elem_of_app. right. constructor.
  - rewrite lookup_insert_ne by done.
    apply elem_of_app in Hin as [Hin|Hin].
    + destruct (IH Hin) as (d' & Hd' & Hsrc & Hlook). exists d'.
      split; [|done]. apply elem_of_app. by left.
    + apply list_elem_of_singleton in Hin as ->. done.
Qed.

(** ** More on one call of [loadVersion] *)

Section loadVersion_more.
Context {Sidebars DocFile : Type} {plugin : Closure Sidebars DocFile}.

Local Abbreviation byId :=
  (λ a b : DocMetadata, localeCompare (id (base a)) (id (base b))).

(** X1.  A successful [loadVersion] writes the side table for the
    documents it read and for nothing else: a key that is the source of
    no document keeps its old value, the source of every document read
    is bound to the permalink of a document read with that source, and
    when the sources are pairwise distinct the source of each document
    is bound to that document's own permalink. *)
Theorem loadVersion_records_source_permalinks vm st lv docsRead :
  (loadVersion vm st).1 = Ok lv →
  loadVersionDocs vm = Ok docsRead →
  (∀ k, k ∉ source <$> docsRead → (loadVersion vm st).2 !! k = st !! k) ∧
  (∀ doc, doc ∈ docsRead →
     ∃ doc', doc' ∈ docsRead ∧ source doc' = source doc ∧
       (loadVersion vm st).2 !! source doc = Some (permalink doc')) ∧
  (NoDup (source <$> docsRead) →
   ∀ doc, doc ∈ docsRead →
     (loadVersion vm st).2 !! source doc = Some (permalink doc)).
Proof.
  intros Hlv Hdocs.
  apply loadVersion_Ok_inv in Hlv
    as (docs' & sb & nav & mainDoc & Hdocs' & _ & Hnav & _ & _ & ->).
  rewrite Hdocs in Hdocs'. injection Hdocs' as <-.
  apply mapM_addNavData_base in Hnav. subst docsRead.
  set (sorted := array_sort byId nav).
  assert (sorted ≡ₚ nav) as Hperm by apply array_sort_Permutation.
  assert (∀ doc, doc ∈ base <$> nav →
     ∃ doc', doc' ∈ base <$> nav ∧ source doc' = source doc ∧
       recordPermalinks sorted st !! source doc = Some (permalink doc'))
    as Hbound.
  { intros doc Hin. apply list_elem_of_fmap in Hin as (d & -> & Hin).
    rewrite <- Hperm in Hin.
    destruct (recordPermalinks_elem sorted st d Hin) as (d' & Hd' & Hsrc & Hl).
    exists (base d'). split; [|done].
    apply list_elem_of_fmap_2. by rewrite <- Hperm. }
  split; [|split].
  - intros k Hk. apply recordPermalinks_other. intros d Hd Heq. apply Hk.
    rewrite <- Heq, <- list_fmap_compose.
    apply (list_elem_of_fmap_2 (source ∘ base)). by rewrite <- Hperm.
  - exact Hbound.
  - intros Hnd doc Hin. destruct (Hbound doc Hin) as (doc' & Hin' & Hsrc & ->).
    by rewrite (NoDup_fmap_elem_inj source _ _ _ Hnd Hin' Hin Hsrc).
Qed.

(** X2.  When the order entry of a document read names, as previous or
    as next, a non-empty id that no document read has and that is not a
    member name of [Object.prototype], [loadVersion] throws the type
    error raised by reading [title] of an undefined dictionary entry,
    before writing anything to the side table. *)
Theorem loadVersion_dangling_neighbor_throws vm st sb docsRead doc i :
  loadVersionDocs vm = Ok docsRead →
  loadSidebars [sidebarPath vm] = Ok sb →
  doc ∈ docsRead →
  o_previous (default emptyOrderNode (createOrder sb !! id doc)) = Some i ∨
  o_next (default emptyOrderNode (createOrder sb !! id doc)) = Some i →
  i ≠ "" →
  (∀ d, d ∈ docsRead → id d ≠ i) →
  i ∉ objectPrototypeKeys →
  loadVersion vm st =
    (Err (TypeError "Cannot read property 'title' of undefined"), st).
Proof.
  intros Hdocs Hsb Hin Hnav Hne Hmiss Hkey.
  assert (addNavData (keyBy id docsRead) (createOrder sb) doc
          = Err (TypeError "Cannot read property 'title' of undefined"))
    as Hdoc.
  { pose proof (keyBy_lookup_None id docsRead i Hmiss) as Hnone.
    unfold addNavData. cbn. destruct Hnav as [-> | Hnext].
    - by rewrite (navLink_dangling _ _ Hne Hnone Hkey).
    - destruct (navLink _ (o_previous _)) as [p|e] eqn:Hp; cbn.
      + by rewrite Hnext, (navLink_dangling _ _ Hne Hnone Hkey).
      + by rewrite (navLink_Err _ _ _ Hp). }
  unfold loadVersion, mbind, M_bind, lift.
  rewrite Hdocs, Hsb.
  rewrite (mapM_Err_uniform _ docsRead doc _
             (addNavData_Err (keyBy id docsRead) (createOrder sb)) Hin Hdoc).
  reflexivity.
Qed.

(** X3.  [loadVersion] returns a loaded version as soon as at least one
    document was read, the sidebars were loaded, and every non-empty id
    that the order entry of a document read names as previous or as
    next is the id of a document read. *)
Theorem loadVersion_returns_when_neighbors_resolve vm st sb docsRead :
  loadVersionDocs vm = Ok docsRead →
  docsRead ≠ [] →
  loadSidebars [sidebarPath vm] = Ok sb →
  (∀ doc i, doc ∈ docsRead →
     o_previous (default emptyOrderNode (createOrder sb !! id doc)) = Some i ∨
     o_next (default emptyOrderNode (createOrder sb !! id doc)) = Some i →
     i ≠ "" → ∃ d, d ∈ docsRead ∧ id d = i) →
  ∃ lv, (loadVersion vm st).1 = Ok lv.
Proof.
  intros Hdocs Hnonempty Hsb Hres.
  destruct (mapM_Forall_Ok (addNavData (keyBy id docsRead) (createOrder sb))
              docsRead) as [nav Hnav].
  { apply Forall_forall. intros doc Hin.
    assert (∀ navId,
      (∀ i, navId = Some i → i ≠ "" → ∃ d, d ∈ docsRead ∧ id d = i) →
      ∃ link, navLink (keyBy id docsRead) navId = Ok link) as Hlink.
    { intros navId Hn. apply navLink_resolved. intros i Hi Hne.
      destruct (Hn i Hi Hne) as (d & Hd & <-). by apply keyBy_lookup_is_Some. }
    unfold addNavData. cbn.
    destruct (Hlink (o_previous (default emptyOrderNode
                       (createOrder sb !! id doc)))) as [p ->].
    { intros i Hi. apply (Hres doc i Hin). by left. }
    destruct (Hlink (o_next (default emptyOrderNode
                       (createOrder sb !! id doc)))) as [n ->].
    { intros i Hi. apply (Hres doc i Hin). by right. }
    cbn. by eexists. }
  unfold loadVersion, mbind, M_bind, lift, modify, mret, M_ret.
  rewrite Hdocs, Hsb, Hnav.
  assert (∃ mainDoc, findMainDoc docsRead = Some mainDoc) as [mainDoc ->].
  { unfold findMainDoc. destruct (List.find isMainDoc docsRead); [by eexists|].
    destruct docsRead; [done|by eexists]. }
  cbn. by eexists.
Qed.

(** X4.  The dictionary [permalinkToSidebar] of a loaded version agrees
    with the sidebar field of its exported documents: every entry is the
    permalink and the sidebar of an exported document, and when the
    permalinks are pairwise distinct every exported document with a
    non-empty sidebar is found under its permalink. *)
Theorem permalinkToSidebar_agrees_with_docs vm st lv :
  (loadVersion vm st).1 = Ok lv →
  (∀ p s, permalinkToSidebar lv !! p = Some s →
     ∃ d, d ∈ docs lv ∧ permalink (base d) = p ∧ sidebar d = Some s) ∧
  (NoDup ((permalink ∘ base) <$> docs lv) →
   ∀ d s, d ∈ docs lv → sidebar d = Some s → s ≠ "" →
     permalinkToSidebar lv !! permalink (base d) = Some s).
Proof.
  intros Hlv.
  apply loadVersion_Ok_inv in Hlv
    as (docsRead & sb & nav & mainDoc & _ & _ & Hnav & _ & -> & _). cbn.
  set (sorted := array_sort byId nav).
  assert (sorted ≡ₚ nav) as Hperm by apply array_sort_Permutation.
  assert (∀ d, d ∈ nav →
            sidebar d = docSidebarName (createOrder sb) (id (base d))) as Hside.
  { intros d Hd. apply mapM_Ok_Forall2 in Hnav.
    apply list_elem_of_lookup in Hd as [n Hn].
    destruct (Forall2_lookup_r _ _ _ _ _ Hnav Hn) as (x & _ & Hx).
    apply addNavData_Ok_inv in Hx as (<- & -> & _).
    apply sidebar_docSidebarName. }
  split.
  - intros p s Hp. apply build_lookup_Some in Hp as (d & Hd & Hpd & Hs & _).
    rewrite Hperm in Hd. exists d. by rewrite (Hside d Hd).
  - intros Hnd d s Hd Hs Hne. apply build_lookup_elem; try done.
    + by rewrite Hperm.
    + by rewrite Hperm.
    + by rewrite <- (Hside d Hd).
Qed.

(** X5.  An exported document has a previous link exactly when its order
    entry names a non-empty previous id, and a next link exactly when it
    names a non-empty next id. *)
Theorem nav_link_present_iff_order_names_neighbor vm st lv d :
  (loadVersion vm st).1 = Ok lv →
  d ∈ docs lv →
  (is_Some (previous d) ↔
     ∃ i, o_previous (default emptyOrderNode
            (createOrder (sidebars lv) !! id (base d))) = Some i ∧ i ≠ "") ∧
  (is_Some (next d) ↔
     ∃ i, o_next (default emptyOrderNode
            (createOrder (sidebars lv) !! id (base d))) = Some i ∧ i ≠ "").
Proof.
  intros Hlv Hd.
  apply loadVersion_Ok_inv in Hlv
    as (docsRead & sb & nav & mainDoc & _ & _ & Hnav & _ & -> & _).
  cbn in *. apply mapM_Ok_Forall2 in Hnav.
  apply list_elem_of_lookup in Hd as [n Hn].
  destruct (Forall2_lookup_r _ _ _ _ _ Hnav Hn) as (x & _ & Hx).
  apply addNavData_Ok_inv in Hx as (Hb & _ & Hprev & Hnext). cbn in *.
  rewrite <- Hb in Hprev, Hnext.
  assert (∀ navId link, navLink (keyBy id docsRead) navId = Ok link →
            (is_Some link ↔ ∃ i, navId = Some i ∧ i ≠ "")) as Hiff.
  { intros navId [link|] Hl.
    - apply navLink_Ok_Some in Hl as (i & -> & Hne & _).
      split; [by exists i|by eexists].
    - apply navLink_Ok_None in Hl. split; [by intros [? [=]]|].
      intros (i & -> & Hne). apply truthy_Some in Hne. congruence. }
  split; by apply Hiff.
Qed.

(** X6.  With no home id configured, a version in which some document
    has the slug [/] gets a main document whose slug is [/]: the
    fallback to the first document read is not taken. *)
Theorem mainDoc_has_root_slug_without_home_id vm st lv docsRead doc :
  (loadVersion vm st).1 = Ok lv →
  loadVersionDocs vm = Ok docsRead →
  homePageId options = None →
  doc ∈ docsRead → slug doc = "/" →
  ∃ main, main ∈ docsRead ∧ slug main = "/" ∧
          mainDocId lv = unversionedId main.
Proof.
  intros Hlv Hdocs Hhome Hin Hslug.
  apply loadVersion_Ok_inv in Hlv
    as (docs' & sb & nav & mainDoc & Hdocs' & _ & _ & Hmain & -> & _).
  rewrite Hdocs in Hdocs'. injection Hdocs' as <-. cbn.
  unfold findMainDoc in Hmain.
  destruct (List.find isMainDoc docsRead) as [m|] eqn:Hfind.
  - injection Hmain as ->.
    apply find_Some_split in Hfind as (pre & post & -> & Hm & _).
    exists mainDoc. split; [|split; [|done]].
    + apply elem_of_app. right. constructor.
    + apply isMainDoc_true in Hm as [Hid|Hs]; [|done].
      rewrite Hhome in Hid. discriminate.
  - apply find_None_Forall in Hfind.
    rewrite Forall_forall in Hfind. specialize (Hfind doc Hin).
    apply isMainDoc_false in Hfind. destruct Hfind. by right.
Qed.

End loadVersion_more.

(** ** The sort sorts *)

Section sort_sorted.
Context {A : Type} (cmp : A → A → Z).
Hypothesis cmp_total : ∀ a b, cmp a b <= 0 ∨ cmp b a <= 0.

Lemma sort_insert_HdRel x y l :
  cmp y x <= 0 → HdRel (λ a b, cmp a b <= 0) y l →
  HdRel (λ a b, cmp a b <= 0) y (sort_insert cmp x l).
Proof.
  intros Hyx Hl. destruct l as [|z l]; cbn; [by constructor|].
  destruct (cmp x z <=? 0); constructor; [done|]. by inversion Hl.
Qed.

Lemma sort_insert_Sorted x l :
  Sorted (λ a b, cmp a b <= 0) l →
  Sorted (λ a b, cmp a b <= 0) (sort_insert cmp x l).
Proof.
  induction l as [|y l IH]; intros Hl; cbn; [by repeat constructor|].
  destruct (cmp x y <=? 0) eqn:Hxy.
  - constructor; [done|]. constructor. by apply Z.leb_le.
  - apply Sorted_inv in Hl as [Hl Hy]. constructor; [by apply IH|].
    apply sort_insert_HdRel; [|done].
    apply Z.leb_gt in Hxy. destruct (cmp_total x y); [lia|done].
Qed.

Lemma array_sort_Sorted l : Sorted (λ a b, cmp a b <= 0) (array_sort cmp l).
Proof.
  induction l as [|x l IH]; cbn; [constructor|]. by apply sort_insert_Sorted.
Qed.
End sort_sorted.

(** ** The whole load cycle, continued *)

Section loadContent_more.
Context {Sidebars DocFile : Type} {plugin : Closure Sidebars DocFile}.

Lemma loadContent_Ok_Forall2 st content :
  (loadContent st).1 = Ok content →
  Forall2 (λ vm lv, (loadVersion vm st).1 = Ok lv)
          versionsMetadata (loadedVersions content).
Proof.
  unfold loadContent, mbind, M_bind, mret, M_ret.
  destruct (promiseAll _ _ st) as [[vs|e] s'] eqn:Hall; cbn; [|discriminate].
  intros [= <-]. cbn.
  assert ((promiseAll loadOrder (map loadVersion versionsMetadata) st).1 = Ok vs)
    as Hvs by (by rewrite Hall).
  apply promiseAll_Ok in Hvs. apply Forall2_fmap_l in Hvs.
  eapply Forall2_impl; [exact Hvs|]. intros vm lv [s Hs]. cbn in Hs.
  rewrite <- Hs. apply steady_idemp, loadVersion_steady.
Qed.

(** X7.  The versions of a loaded content are the results of
    [loadVersion] on the configured versions, one per version and in the
    configured order; each carries the metadata of its version. *)
Theorem loadContent_versions_in_configured_order st content :
  (loadContent st).1 = Ok content →
  Forall2 (λ vm lv, (loadVersion vm st).1 = Ok lv)
          versionsMetadata (loadedVersions content) ∧
  metadata <$> loadedVersions content = versionsMetadata.
Proof.
  intros Hloaded%loadContent_Ok_Forall2. split; [exact Hloaded|].
  induction Hloaded as [|vm lv vms lvs Hlv _ IH]; [done|].
  cbn. rewrite IH. f_equal.
  apply loadVersion_Ok_inv in Hlv as (? & ? & ? & ? & _ & _ & _ & _ & -> & _).
  done.
Qed.

(** X8.  When [loadVersion] returns for every configured version,
    [loadContent] returns a content. *)
Theorem loadContent_returns_when_all_versions_load st :
  (∀ vm, vm ∈ versionsMetadata → ∃ lv, (loadVersion vm st).1 = Ok lv) →
  ∃ content, (loadContent st).1 = Ok content.
Proof.
  intros Hall.
  destruct (promiseAll_all_Ok loadOrder (map loadVersion versionsMetadata))
    with (s := st) as [vs Hvs].
  { apply Forall_forall. intros t Ht.
    apply list_elem_of_fmap in Ht as (vm & -> & Hvm).
    destruct (Hall vm Hvm) as [lv Hlv]. intros s. exists lv.
    rewrite <- Hlv. apply steady_idemp, loadVersion_steady. }
  unfold loadContent, mbind, M_bind, mret, M_ret.
  destruct (promiseAll _ _ st) as [[vs'|e] s']; cbn in *; [by eexists|].
  discriminate.
Qed.

(** X9.  Two different version names, neither empty nor the word
    [next], get different route fragments. *)
Theorem getVersionPathPart_distinct v1 v2 :
  v1 ≠ v2 → v1 ≠ "" → v2 ≠ "" → v1 ≠ "next" → v2 ≠ "next" →
  getVersionPathPart v1 ≠ getVersionPathPart v2.
Proof.
  intros Hne H1 H2 H1' H2'. unfold getVersionPathPart.
  repeat case_decide; congruence.
Qed.

(** X10.  The watched paths are, for every configured version, its
    sidebar file and each include pattern under its documents
    directory, and nothing else: one path per version plus one per
    version and pattern. *)
Theorem getPathsToWatch_paths include :
  (∀ p, p ∈ getPathsToWatch include ↔
     ∃ v, v ∈ versionsMetadata ∧
       (p = sidebarPath v ∨
        ∃ pattern, pattern ∈ include ∧ p = docsPath v +:+ "/" +:+ pattern)) ∧
  length (getPathsToWatch include)
    = (length versionsMetadata * S (length include))%nat.
Proof.
  unfold getPathsToWatch. split.
  - intros p. rewrite list_elem_of_join. split.
    + intros (l & Hp & Hl). apply list_elem_of_fmap in Hl as (v & -> & Hv).
      exists v. split; [done|]. unfold getVersionPathsToWatch in Hp.
      apply elem_of_cons in Hp as [->|Hp]; [by left|]. right.
      apply list_elem_of_fmap in Hp as (pattern & -> & Hpat). by exists pattern.
    + intros (v & Hv & Hp). exists (getVersionPathsToWatch include v).
      split; [|by apply list_elem_of_fmap_2].
      unfold getVersionPathsToWatch. destruct Hp as [->|(pattern & Hpat & ->)].
      * constructor.
      * apply elem_of_cons. right.
        by apply (list_elem_of_fmap_2
                    (λ pattern, docsPath v +:+ "/" +:+ pattern)).
  - generalize versionsMetadata. intros vms.
    induction vms as [|v vs IH]; [done|].
    rewrite fmap_cons. change (mjoin (?l :: ?ls)) with (l ++ mjoin ls).
    rewrite length_app, IH. unfold getVersionPathsToWatch. cbn.
    by rewrite length_fmap.
Qed.

End loadContent_more.

Lemma string_length_app (a b : string) :
  String.length (a +:+ b) = (String.length a + String.length b)%nat.
Proof. induction a as [|x a IH]; simpl; [done|]. f_equal. exact IH. Qed.

Lemma string_app_cancel_r (a b c : string) : a +:+ c = b +:+ c → a = b.
Proof.
  revert b. induction a as [|x a IH]; intros [|y b]; simpl.
  - done.
  - intros H. apply (f_equal String.length) in H.
    rewrite ?string_length_app in H. simpl in H.
    rewrite ?string_length_app in H. lia.
  - intros H. apply (f_equal String.length) in H.
    rewrite ?string_length_app in H. simpl in H.
    rewrite ?string_length_app in H. lia.
  - intros [= -> H]. f_equal. by apply IH.
Qed.

(** X11.  Two plugin instances with different ids get different command
    names and different command descriptions, whatever the default id
    is. *)
Theorem command_distinct DEFAULT_PLUGIN_ID id1 id2 :
  id1 ≠ id2 →
  command DEFAULT_PLUGIN_ID id1 ≠ command DEFAULT_PLUGIN_ID id2 ∧
  commandDescription DEFAULT_PLUGIN_ID id1
    ≠ commandDescription DEFAULT_PLUGIN_ID id2.
Proof.
  intros Hne. unfold command, commandDescription.
  repeat case_decide; subst; split; try congruence.
  all: intros Heq;
    first [ apply (f_equal String.length) in Heq;
            rewrite ?string_length_app in Heq; simpl in Heq; lia
          | apply (inj (String.append _)) in Heq;
            first [congruence | apply string_app_cancel_r in Heq; congruence] ].
Qed.

(** ** Routes and global data *)

Section contentLoaded_more.
Context {Sidebars DocFile : Type} {plugin : Closure Sidebars DocFile}.
Context {GlobalVersion : Type} {publishing : Publishing Sidebars GlobalVersion}.

Local Abbreviation byPath :=
  (λ a b : RouteConfig, localeCompare (path a) (path b)).
Local Abbreviation docDataWritten := (λ d : DocMetadata,
  ∃ p, createData (docuHash (source (base d)) +:+ ".json") (stringifyDoc d)
       = Ok p).
Local Abbreviation docRoute := (λ d : DocMetadata,
  {| path := permalink (base d);
     component := docItemComponent options;
     exact := true;
     routes := [];
     modules := [("content", source (base d))];
     priority := None |}).
Local Abbreviation versionDataName := (λ lv : LoadedVersion Sidebars,
  docuHash ("version-" +:+ versionName (metadata lv) +:+ "-metadata-prop")
    +:+ ".json").
Local Abbreviation versionRoute := (λ (lv : LoadedVersion Sidebars) r,
  ∃ p docRoutes,
    createData (versionDataName lv) (stringifyVersionMetadataProp lv) = Ok p ∧
    createDocRoutes (docs lv) = Ok docRoutes ∧
    r = {| path := versionPath lv;
           component := docLayoutComponent options;
           exact := false;
           routes := docRoutes;
           modules := [("versionMetadata", aliasedSource p)];
           priority := if decide (getVersionPathPart
                                    (versionName (metadata lv)) = "")
                       then Some (-1) else None |}).

Lemma createDocRoutes_Ok_inv docs rs :
  createDocRoutes docs = Ok rs →
  ∃ raw, Forall2 (λ d r, docDataWritten d ∧ r = docRoute d) docs raw ∧
         rs = array_sort byPath raw.
Proof.
  unfold createDocRoutes.
  destruct (promiseAllPure _ _) as [raw|e] eqn:Hraw; cbn; [|discriminate].
  intros [= <-]. exists raw. split; [|done].
  apply promiseAllPure_fmap_Ok in Hraw. eapply Forall2_impl; [exact Hraw|].
  intros d r. cbn. destruct (createData _ _) as [p|e]; cbn; [|discriminate].
  intros [= <-]. split; [by exists p|done].
Qed.

Lemma createDocRoutes_all_written docs :
  Forall (λ d, docDataWritten d) docs → ∃ rs, createDocRoutes docs = Ok rs.
Proof.
  intros Hall. unfold createDocRoutes.
  match goal with
  | |- context [promiseAllPure ?order (?f <$> docs)] =>
      assert (promiseAllPure order (f <$> docs) = Ok (docRoute <$> docs))
        as ->
  end.
  - apply promiseAllPure_fmap_Ok, Forall2_fmap_r, Forall_Forall2_diag.
    eapply Forall_impl; [exact Hall|]. intros d [p Hp]. cbn. by rewrite Hp.
  - cbn. by eexists.
Qed.

(** X12.  The routes made for the documents of a version are as many as
    the documents: their paths are the permalinks of the documents, up
    to order, and each is an exact route to the document component with
    no sub-route and no priority, whose content module is the source of
    the document it is the permalink of. *)
Theorem createDocRoutes_one_route_per_doc docs rs :
  createDocRoutes docs = Ok rs →
  path <$> rs ≡ₚ (permalink ∘ base) <$> docs ∧
  Forall (λ r, exact r = true ∧ component r = docItemComponent options ∧
               routes r = [] ∧ priority r = None ∧
               ∃ d, d ∈ docs ∧ path r = permalink (base d) ∧
                    modules r = [("content", source (base d))]) rs.
Proof.
  intros (raw & Hraw & ->)%createDocRoutes_Ok_inv.
  assert (raw = docRoute <$> docs) as ->.
  { clear -Hraw. induction Hraw as [|d r ds rs' [_ ->] _ IH]; [done|].
    cbn. by rewrite IH. }
  split.
  - rewrite array_sort_Permutation, <- list_fmap_compose. done.
  - rewrite array_sort_Permutation. apply Forall_forall. intros r Hr.
    apply list_elem_of_fmap in Hr as (d & -> & Hd). cbn.
    repeat split. by exists d.
Qed.

(** X13.  [createDocRoutes] returns exactly when [createData] can write
    the metadata file of every document. *)
Theorem createDocRoutes_returns_iff_all_written docs :
  (∃ rs, createDocRoutes docs = Ok rs) ↔
  ∀ d, d ∈ docs →
    ∃ p, createData (docuHash (source (base d)) +:+ ".json") (stringifyDoc d)
         = Ok p.
Proof.
  split.
  - intros [rs (raw & Hraw & _)%createDocRoutes_Ok_inv] d Hd.
    apply list_elem_of_lookup in Hd as [n Hn].
    by destruct (Forall2_lookup_l _ _ _ _ _ Hraw Hn) as (r & _ & Hw & _).
  - intros Hall. apply createDocRoutes_all_written. by apply Forall_forall.
Qed.

(** X14.  When [localeCompare] is total, the routes made for the
    documents of a version are sorted by path. *)
Theorem createDocRoutes_sorted_by_path docs rs :
  (∀ a b, localeCompare a b <= 0 ∨ localeCompare b a <= 0) →
  createDocRoutes docs = Ok rs →
  Sorted (λ a b, localeCompare (path a) (path b) <= 0) rs.
Proof.
  intros Htotal (raw & _ & ->)%createDocRoutes_Ok_inv.
  apply (array_sort_Sorted byPath). intros a b. apply Htotal.
Qed.

Lemma handleVersion_globalData lv (a : Actions GlobalVersion) :
  globalData (handleVersion lv a).2 = globalData a.
Proof.
  unfold handleVersion, mbind, M_bind, lift, addRoute, modify.
  destruct (createData _ _); [|done]. by destruct (createDocRoutes _).
Qed.

Lemma handleVersion_Ok_inv lv (a : Actions GlobalVersion) :
  (handleVersion lv a).1 = Ok () →
  ∃ r, versionRoute lv r ∧
       addedRoutes (handleVersion lv a).2 = addedRoutes a ++ [r].
Proof.
  unfold handleVersion, mbind, M_bind, lift, addRoute, modify.
  destruct (createData _ _) as [p|e] eqn:Hp; [|discriminate].
  destruct (createDocRoutes _) as [rs|e] eqn:Hrs; [|discriminate].
  intros _. cbn. eexists. split; [|reflexivity]. by exists p, rs.
Qed.

Lemma handleVersion_fails lv :
  (∃ e, createData (versionDataName lv) (stringifyVersionMetadataProp lv)
        = Err e) ∨
  (∃ d e, d ∈ docs lv ∧
     createData (docuHash (source (base d)) +:+ ".json") (stringifyDoc d)
       = Err e) →
  ∀ a : Actions GlobalVersion, ∃ e, (handleVersion lv a).1 = Err e.
Proof.
  intros Hfail a. unfold handleVersion, mbind, M_bind, lift, addRoute, modify.
  destruct (createData _ _) as [p|e] eqn:Hp; [|by exists e].
  destruct Hfail as [[e He]|(d & e & Hd & He)]; [congruence|].
  destruct (createDocRoutes (docs lv)) as [rs|e'] eqn:Hrs; [|by exists e'].
  apply createDocRoutes_Ok_inv in Hrs as (raw & Hraw & _).
  apply list_elem_of_lookup in Hd as [n Hn].
  destruct (Forall2_lookup_l _ _ _ _ _ Hraw Hn) as (r & _ & [p' Hw] & _).
  congruence.
Qed.

Lemma handleVersions_globalData lvs (a : Actions GlobalVersion) :
  globalData (promiseAll publishOrder (map handleVersion lvs) a).2
    = globalData a.
Proof.
  apply (promiseAll_preserves globalData), Forall_fmap, Forall_forall.
  intros lv _ s. apply handleVersion_globalData.
Qed.

(** The routes are added as the versions settle. *)
Lemma handleVersions_settling (settling : list (nat * LoadedVersion Sidebars))
    (a : Actions GlobalVersion) :
  firstError
    (runAll (prod_map (λ i : nat, i) handleVersion <$> settling) a).1 = None →
  ∃ new, Forall2 versionRoute settling.*2 new ∧
         addedRoutes
           (runAll (prod_map (λ i : nat, i) handleVersion <$> settling) a).2
           = addedRoutes a ++ new.
Proof.
  revert a. induction settling as [|[i lv] rest IH]; intros a.
  - intros _. exists []. split; [constructor|]. cbn. by rewrite app_nil_r.
  - rewrite fmap_cons.
    change (prod_map (λ i : nat, i) handleVersion (i, lv))
      with (i, handleVersion lv).
    rewrite runAll_cons. cbn [fst snd firstError].
    destruct (handleVersion lv a).1 as [[]|e] eqn:Hlv; [|discriminate].
    intros Hrest. apply handleVersion_Ok_inv in Hlv as (r & Hr & Hroutes).
    destruct (IH _ Hrest) as (new & Hnew & Hnewroutes).
    exists (r :: new). split; [by constructor|].
    by rewrite Hnewroutes, Hroutes, <- app_assoc.
Qed.

Lemma handleVersions_routes lvs (a : Actions GlobalVersion) us :
  (promiseAll publishOrder (map handleVersion lvs) a).1 = Ok us →
  ∃ new, Forall2 versionRoute (timeline publishOrder lvs) new ∧
         addedRoutes (promiseAll publishOrder (map handleVersion lvs) a).2
           = addedRoutes a ++ new.
Proof.
  rewrite promiseAll_unfold. cbn [fst snd].
  change (map handleVersion lvs) with (handleVersion <$> lvs).
  rewrite imap_pair_fmap, timeline_fmap.
  destruct (firstError _) as [e|] eqn:Hfirst; [discriminate|]. intros _.
  apply handleVersions_settling in Hfirst as (new & Hnew & Hroutes).
  rewrite <- timeline_fmap, imap_pair_snd in Hnew. by exists new.
Qed.

Lemma contentLoaded_Ok_inv content (a : Actions GlobalVersion) :
  (contentLoaded content a).1 = Ok () →
  (∃ new, Forall2 versionRoute
            (timeline publishOrder (loadedVersions content)) new ∧
          addedRoutes (contentLoaded content a).2 = addedRoutes a ++ new) ∧
  globalData (contentLoaded content a).2 =
    Some {| gd_path := normalizeUrl [baseUrl; routeBasePath options];
            latestVersionName := latestVersion;
            versions := toGlobalDataVersion <$> loadedVersions content |}.
Proof.
  unfold contentLoaded, mbind, M_bind, setGlobalData, modify.
  destruct (promiseAll _ _ a) as [[us|e] a1] eqn:Hall; [|discriminate].
  intros _. cbn. split; [|done].
  assert ((promiseAll publishOrder
             (map handleVersion (loadedVersions content)) a).1
          = Ok us) as Hus by (by rewrite Hall).
  apply handleVersions_routes in Hus as (new & Hnew & Hroutes).
  rewrite Hall in Hroutes. by exists new.
Qed.

Lemma getVersionPathPart_empty_iff version :
  getVersionPathPart version = "" ↔ latestVersion = Some version ∨ version = "".
Proof.
  unfold getVersionPathPart. repeat case_decide; subst; split;
    try done; try (by left); try (by right); intros [?|?];
    try congruence; unfold CURRENT_VERSION_NAME in *; discriminate.
Qed.

(** X15.  When [contentLoaded] completes it has added, after the routes
    already there, one route per loaded version, in the order in which
    the versions were done being handled, which is some rearrangement of
    the loaded versions: a non-exact route at the path of the version,
    to the layout component, whose sub-routes are the routes made for
    the documents of the version and whose version metadata module is
    the aliased path of the data file written for the version. *)
Theorem contentLoaded_adds_one_route_per_version content
    (actions : Actions GlobalVersion) :
  (contentLoaded content actions).1 = Ok () →
  ∃ new,
    addedRoutes (contentLoaded content actions).2 = addedRoutes actions ++ new ∧
    timeline publishOrder (loadedVersions content) ≡ₚ loadedVersions content ∧
    Forall2 (λ lv r,
      path r = versionPath lv ∧ exact r = false ∧
      component r = docLayoutComponent options ∧
      createDocRoutes (docs lv) = Ok (routes r) ∧
      ∃ p, createData
             (docuHash ("version-" +:+ versionName (metadata lv)
                          +:+ "-metadata-prop") +:+ ".json")
             (stringifyVersionMetadataProp lv) = Ok p ∧
           modules r = [("versionMetadata", aliasedSource p)])
      (timeline publishOrder (loadedVersions content)) new.
Proof.
  intros [(new & Hnew & Hroutes) _]%contentLoaded_Ok_inv.
  exists new. split; [done|]. split; [apply timeline_Permutation|].
  eapply Forall2_impl; [exact Hnew|].
  intros lv r (p & rs & Hp & Hrs & ->). cbn. repeat split; [done|].
  by exists p.
Qed.

(** X16.  Among the routes that [contentLoaded] adds, one per loaded
    version in the order in which the versions were done being handled,
    the route of a version has priority -1 exactly when the version is
    the latest one (or has the empty name), and no priority otherwise. *)
Theorem contentLoaded_latest_route_has_low_priority content
    (actions : Actions GlobalVersion) :
  (contentLoaded content actions).1 = Ok () →
  ∃ new,
    addedRoutes (contentLoaded content actions).2 = addedRoutes actions ++ new ∧
    timeline publishOrder (loadedVersions content) ≡ₚ loadedVersions content ∧
    Forall2 (λ lv r,
      path r = versionPath lv ∧
      (priority r = Some (-1) ↔
         latestVersion = Some (versionName (metadata lv)) ∨
         versionName (metadata lv) = "") ∧
      (priority r = None ∨ priority r = Some (-1)))
      (timeline publishOrder (loadedVersions content)) new.
Proof.
  intros [(new & Hnew & Hroutes) _]%contentLoaded_Ok_inv.
  exists new. split; [done|]. split; [apply timeline_Permutation|].
  eapply Forall2_impl; [exact Hnew|].
  intros lv r (p & rs & _ & _ & ->). cbn. split; [done|].
  rewrite <- getVersionPathPart_empty_iff.
  case_decide; split; try (by left); try (by right); split; done.
Qed.

(** X17.  When [createData] cannot write the metadata prop of a loaded
    version, or the metadata of one of its documents, [contentLoaded]
    throws and publishes nothing: the global data is what it was. *)
Theorem contentLoaded_failed_write_publishes_nothing content
    (actions : Actions GlobalVersion) lv :
  lv ∈ loadedVersions content →
  (∃ e, createData
          (docuHash ("version-" +:+ versionName (metadata lv)
                       +:+ "-metadata-prop") +:+ ".json")
          (stringifyVersionMetadataProp lv) = Err e) ∨
  (∃ d e, d ∈ docs lv ∧
     createData (docuHash (source (base d)) +:+ ".json") (stringifyDoc d)
       = Err e) →
  (∃ e, (contentLoaded content actions).1 = Err e) ∧
  globalData (contentLoaded content actions).2 = globalData actions.
Proof.
  intros Hin Hfail.
  destruct (promiseAll_Err publishOrder (map handleVersion (loadedVersions content))
              (handleVersion lv)) with (s := actions) as [e He].
  { by apply list_elem_of_fmap_2. }
  { by apply handleVersion_fails. }
  pose proof (handleVersions_globalData (loadedVersions content) actions)
    as Hdata.
  unfold contentLoaded, mbind, M_bind.
  destruct (promiseAll _ _ actions) as [[us|e'] a1]; cbn in *; [discriminate|].
  split; [by exists e'|done].
Qed.

(** X18.  Loading and then publishing: when [loadContent] returns a
    content and [contentLoaded] completes on it, the global data holds,
    for the configured versions in their order, the summary of what
    [loadVersion] returned for each, under the path made of the base URL
    and the route base path. *)
Theorem loadContent_then_contentLoaded_globalData st content
    (actions : Actions GlobalVersion) :
  (loadContent st).1 = Ok content →
  (contentLoaded content actions).1 = Ok () →
  ∃ data,
    globalData (contentLoaded content actions).2 = Some data ∧
    gd_path data = normalizeUrl [baseUrl; routeBasePath options] ∧
    Forall2 (λ vm summary,
               ∃ lv, (loadVersion vm st).1 = Ok lv ∧
                     summary = toGlobalDataVersion lv)
            versionsMetadata (versions data).
Proof.
  intros Hloaded%loadContent_Ok_Forall2 [_ Hdata]%contentLoaded_Ok_inv.
  eexists. split; [exact Hdata|]. cbn. split; [done|].
  apply Forall2_fmap_r. eapply Forall2_impl; [exact Hloaded|].
  intros vm lv Hlv. by exists lv.
Qed.

End contentLoaded_more.

(** * The further properties on the small site *)

Lemma compareCodePoints_total (a b : string) :
  Site.compareCodePoints a b <= 0 ∨ Site.compareCodePoints b a <= 0.
Proof.
  unfold Site.compareCodePoints. rewrite (String.compare_antisym a b).
  destruct (String.compare b a); cbn; lia.
Qed.

(** Loading [2.0] binds the three sources to the three permalinks. *)
Lemma loadVersion_records_source_permalinks_witness :
  (loadVersion (plugin := Site.site) (Site.mkVersion "2.0") ∅).1
    = Ok Site.loaded20 ∧
  loadVersionDocs (plugin := Site.site) (Site.mkVersion "2.0")
    = Ok Site.docs20 ∧
  NoDup (source <$> Site.docs20) ∧
  ∀ doc, doc ∈ Site.docs20 →
    (loadVersion (plugin := Site.site) (Site.mkVersion "2.0") ∅).2
      !! source doc = Some (permalink doc).
Proof.
  assert ((loadVersion (plugin := Site.site) (Site.mkVersion "2.0") ∅).1
          = Ok Site.loaded20) as Hlv by by_eval.
  assert (loadVersionDocs (plugin := Site.site) (Site.mkVersion "2.0")
          = Ok Site.docs20) as Hdocs by by_eval.
  assert (NoDup (source <$> Site.docs20)) as Hnd by by_decide.
  repeat (split; [assumption|]).
  exact (proj2 (proj2
    (loadVersion_records_source_permalinks (plugin := Site.site)
       (Site.mkVersion "2.0") ∅ Site.loaded20 Site.docs20 Hlv Hdocs)) Hnd).
Defined.

(** With the dangling order, [setup] names a next document that is not
    there: loading [2.0] throws and writes nothing. *)
Lemma loadVersion_dangling_neighbor_throws_witness :
  loadVersionDocs (plugin := Faulty.dangling) (Site.mkVersion "2.0")
    = Ok Site.docs20 ∧
  loadSidebars (Closure := Faulty.dangling)
    [sidebarPath (Site.mkVersion "2.0")] = Ok Faulty.danglingOrder ∧
  Site.mkDoc "2.0" "setup" "/setup" ∈ Site.docs20 ∧
  o_next (default emptyOrderNode
    (createOrder (Closure := Faulty.dangling) Faulty.danglingOrder
       !! id (Site.mkDoc "2.0" "setup" "/setup")))
    = Some "version-2.0/missing" ∧
  Forall (λ d, id d ≠ "version-2.0/missing") Site.docs20 ∧
  ("version-2.0/missing" ∉ objectPrototypeKeys) ∧
  loadVersion (plugin := Faulty.dangling) (Site.mkVersion "2.0") ∅ =
    (Err (TypeError "Cannot read property 'title' of undefined"), ∅).
Proof.
  assert (loadVersionDocs (plugin := Faulty.dangling) (Site.mkVersion "2.0")
          = Ok Site.docs20) as Hdocs by by_eval.
  assert (loadSidebars (Closure := Faulty.dangling)
            [sidebarPath (Site.mkVersion "2.0")] = Ok Faulty.danglingOrder)
    as Hsb by by_eval.
  assert (Site.mkDoc "2.0" "setup" "/setup" ∈ Site.docs20) as Hin by by_decide.
  assert (o_next (default emptyOrderNode
            (createOrder (Closure := Faulty.dangling) Faulty.danglingOrder
               !! id (Site.mkDoc "2.0" "setup" "/setup")))
          = Some "version-2.0/missing") as Hnext by by_eval.
  assert (Forall (λ d, id d ≠ "version-2.0/missing") Site.docs20)
    as Hmiss by by_decide.
  assert ("version-2.0/missing" ∉ objectPrototypeKeys) as Hkey by by_decide.
  repeat (split; [assumption|]).
  exact (loadVersion_dangling_neighbor_throws (plugin := Faulty.dangling)
           (Site.mkVersion "2.0") ∅ Faulty.danglingOrder Site.docs20
           (Site.mkDoc "2.0" "setup" "/setup") "version-2.0/missing"
           Hdocs Hsb Hin (or_intror Hnext) ltac:(discriminate)
           (proj1 (Forall_forall _ _) Hmiss) Hkey).
Defined.

(** On [2.0] every neighbour named by the order is a document read. *)
Lemma loadVersion_returns_when_neighbors_resolve_witness :
  loadVersionDocs (plugin := Site.site) (Site.mkVersion "2.0")
    = Ok Site.docs20 ∧
  loadSidebars (Closure := Site.site) [sidebarPath (Site.mkVersion "2.0")]
    = Ok Site.order20 ∧
  ∃ lv, (loadVersion (plugin := Site.site) (Site.mkVersion "2.0") ∅).1 = Ok lv.
Proof.
  assert (loadVersionDocs (plugin := Site.site) (Site.mkVersion "2.0")
          = Ok Site.docs20) as Hdocs by by_eval.
  assert (loadSidebars (Closure := Site.site)
            [sidebarPath (Site.mkVersion "2.0")] = Ok Site.order20)
    as Hsb by by_eval.
  repeat (split; [assumption|]).
  apply (loadVersion_returns_when_neighbors_resolve (plugin := Site.site)
           (Site.mkVersion "2.0") ∅ Site.order20 Site.docs20 Hdocs);
    [discriminate|exact Hsb|].
  intros doc i Hin Hnav _.
  repeat (apply elem_of_cons in Hin as [->|Hin]); [..|by inversion Hin];
    vm_compute in Hnav; destruct Hnav as [[= <-]|[= <-]].
  - exists (Site.mkDoc "2.0" "intro" "/"). split; [by_decide|reflexivity].
  - exists (Site.mkDoc "2.0" "setup" "/setup"). split; [by_decide|reflexivity].
Defined.

(** The three versions come back in the configured order. *)
Lemma loadContent_versions_in_configured_order_witness :
  (loadContent (plugin := Site.site) ∅).1 = Ok Site.content ∧
  metadata <$> loadedVersions Site.content = Site.allVersions.
Proof.
  assert ((loadContent (plugin := Site.site) ∅).1 = Ok Site.content)
    as Hcontent by by_eval.
  split; [assumption|].
  exact (proj2 (loadContent_versions_in_configured_order (plugin := Site.site)
                  ∅ Site.content Hcontent)).
Defined.

(** Each of the three versions loads, so the content loads. *)
Lemma loadContent_returns_when_all_versions_load_witness :
  ∃ content, (loadContent (plugin := Site.site) ∅).1 = Ok content.
Proof.
  apply (loadContent_returns_when_all_versions_load (plugin := Site.site) ∅).
  intros vm Hin.
  repeat (apply elem_of_cons in Hin as [->|Hin]); [..|by inversion Hin];
    (destruct (loadVersion (plugin := Site.site) _ ∅).1 as [lv|e] eqn:Hlv;
       [by exists lv|vm_compute in Hlv; discriminate]).
Defined.

(** On [2.0] the dictionary and the sidebar fields agree. *)
Lemma permalinkToSidebar_agrees_with_docs_witness :
  (loadVersion (plugin := Site.site) (Site.mkVersion "2.0") ∅).1
    = Ok Site.loaded20 ∧
  NoDup ((permalink ∘ base) <$> docs Site.loaded20) ∧
  ∀ d s, d ∈ docs Site.loaded20 → sidebar d = Some s → s ≠ "" →
    permalinkToSidebar Site.loaded20 !! permalink (base d) = Some s.
Proof.
  assert ((loadVersion (plugin := Site.site) (Site.mkVersion "2.0") ∅).1
          = Ok Site.loaded20) as Hlv by by_eval.
  assert (NoDup ((permalink ∘ base) <$> docs Site.loaded20)) as Hnd
    by by_decide.
  repeat (split; [assumption|]).
  exact (proj2 (permalinkToSidebar_agrees_with_docs (plugin := Site.site)
                  (Site.mkVersion "2.0") ∅ Site.loaded20 Hlv) Hnd).
Defined.

(** On [2.0] the document [setup] has a previous link and no next
    link, as its order entry says. *)
Lemma nav_link_present_iff_order_names_neighbor_witness :
  (loadVersion (plugin := Site.site) (Site.mkVersion "2.0") ∅).1
    = Ok Site.loaded20 ∧
  Site.setupLoaded ∈ docs Site.loaded20 ∧
  (is_Some (previous Site.setupLoaded) ↔
     ∃ i, o_previous (default emptyOrderNode
            (createOrder (Closure := Site.site) (sidebars Site.loaded20)
               !! id (base Site.setupLoaded))) = Some i ∧ i ≠ "") ∧
  (is_Some (next Site.setupLoaded) ↔
     ∃ i, o_next (default emptyOrderNode
            (createOrder (Closure := Site.site) (sidebars Site.loaded20)
               !! id (base Site.setupLoaded))) = Some i ∧ i ≠ "").
Proof.
  assert ((loadVersion (plugin := Site.site) (Site.mkVersion "2.0") ∅).1
          = Ok Site.loaded20) as Hlv by by_eval.
  assert (Site.setupLoaded ∈ docs Site.loaded20) as Hin by by_decide.
  repeat (split; [assumption|]).
  exact (nav_link_present_iff_order_names_neighbor (plugin := Site.site)
           (Site.mkVersion "2.0") ∅ Site.loaded20 Site.setupLoaded Hlv Hin).
Defined.

(** On [2.0], without a home id, the main document has the slug [/]. *)
Lemma mainDoc_has_root_slug_without_home_id_witness :
  (loadVersion (plugin := Site.site) (Site.mkVersion "2.0") ∅).1
    = Ok Site.loaded20 ∧
  loadVersionDocs (plugin := Site.site) (Site.mkVersion "2.0")
    = Ok Site.docs20 ∧
  homePageId (options (Closure := Site.site)) = None ∧
  Site.mkDoc "2.0" "intro" "/" ∈ Site.docs20 ∧
  ∃ main, main ∈ Site.docs20 ∧ slug main = "/" ∧
          mainDocId Site.loaded20 = unversionedId main.
Proof.
  assert ((loadVersion (plugin := Site.site) (Site.mkVersion "2.0") ∅).1
          = Ok Site.loaded20) as Hlv by by_eval.
  assert (loadVersionDocs (plugin := Site.site) (Site.mkVersion "2.0")
          = Ok Site.docs20) as Hdocs by by_eval.
  assert (Site.mkDoc "2.0" "intro" "/" ∈ Site.docs20) as Hin by by_decide.
  split; [assumption|]. split; [assumption|]. split; [reflexivity|].
  split; [assumption|].
  exact (mainDoc_has_root_slug_without_home_id (plugin := Site.site)
           (Site.mkVersion "2.0") ∅ Site.loaded20 Site.docs20
           (Site.mkDoc "2.0" "intro" "/") Hlv Hdocs eq_refl Hin eq_refl).
Defined.

(** [2.0] and [1.0] get different fragments. *)
Lemma getVersionPathPart_distinct_witness :
  getVersionPathPart (plugin := Site.site) "2.0"
    ≠ getVersionPathPart (plugin := Site.site) "1.0".
Proof.
  apply (getVersionPathPart_distinct (plugin := Site.site) "2.0" "1.0");
    discriminate.
Defined.

(** The default instance and an instance named [community]. *)
Lemma command_distinct_witness :
  command "default" "default" ≠ command "default" "community" ∧
  commandDescription "default" "default"
    ≠ commandDescription "default" "community".
Proof.
  apply (command_distinct "default" "default" "community"). discriminate.
Defined.

(** The routes of the documents of [2.0]. *)
Lemma createDocRoutes_one_route_per_doc_witness :
  createDocRoutes (plugin := Site.site) (publishing := Site.publishing)
    (docs Site.loaded20) = Ok SiteRoutes.docRoutes20 ∧
  path <$> SiteRoutes.docRoutes20
    ≡ₚ (permalink ∘ base) <$> docs Site.loaded20.
Proof.
  assert (createDocRoutes (plugin := Site.site) (publishing := Site.publishing)
            (docs Site.loaded20) = Ok SiteRoutes.docRoutes20) as Hrs by by_eval.
  split; [assumption|].
  exact (proj1 (createDocRoutes_one_route_per_doc (plugin := Site.site)
                  (publishing := Site.publishing) (docs Site.loaded20)
                  SiteRoutes.docRoutes20 Hrs)).
Defined.

Lemma createDocRoutes_sorted_by_path_witness :
  createDocRoutes (plugin := Site.site) (publishing := Site.publishing)
    (docs Site.loaded20) = Ok SiteRoutes.docRoutes20 ∧
  Sorted (λ a b, localeCompare (Closure := Site.site) (path a) (path b) <= 0)
         SiteRoutes.docRoutes20.
Proof.
  assert (createDocRoutes (plugin := Site.site) (publishing := Site.publishing)
            (docs Site.loaded20) = Ok SiteRoutes.docRoutes20) as Hrs by by_eval.
  split; [assumption|].
  exact (createDocRoutes_sorted_by_path (plugin := Site.site)
           (publishing := Site.publishing) (docs Site.loaded20)
           SiteRoutes.docRoutes20 compareCodePoints_total Hrs).
Defined.

(** Publishing the three versions when the unreleased one is done last
    adds three routes, the route of the unreleased version last. *)
Lemma contentLoaded_adds_one_route_per_version_witness :
  (contentLoaded (plugin := Site.site) (publishing := Staggered.publishing)
     Site.content Site.noActions).1 = Ok () ∧
  ∃ new,
    addedRoutes (contentLoaded (plugin := Site.site)
                   (publishing := Staggered.publishing)
                   Site.content Site.noActions).2 = new ∧
    path <$> new = ["/docs"; "/docs/1.0"; "/docs/next"].
Proof.
  assert ((contentLoaded (plugin := Site.site)
             (publishing := Staggered.publishing)
             Site.content Site.noActions).1 = Ok ()) as Hdone by by_eval.
  assert (versionPath <$>
            timeline (publishOrder (Publishing := Staggered.publishing))
                     (loadedVersions Site.content)
          = ["/docs"; "/docs/1.0"; "/docs/next"]) as Hpaths by by_eval.
  split; [assumption|].
  destruct (contentLoaded_adds_one_route_per_version (plugin := Site.site)
              (publishing := Staggered.publishing) Site.content Site.noActions
              Hdone) as (new & Hroutes & _ & Hnew).
  exists new. split; [exact Hroutes|].
  rewrite <- Hpaths.
  clear -Hnew. induction Hnew as [|lv r lvs rs (Hpath & _) _ IH]; [done|].
  cbn. by rewrite IH, Hpath.
Defined.

(** In that order the route of the latest version, [2.0], comes first,
    and every route has priority -1 or none. *)
Lemma contentLoaded_latest_route_has_low_priority_witness :
  (contentLoaded (plugin := Site.site) (publishing := Staggered.publishing)
     Site.content Site.noActions).1 = Ok () ∧
  ∃ new,
    addedRoutes (contentLoaded (plugin := Site.site)
                   (publishing := Staggered.publishing)
                   Site.content Site.noActions).2 = new ∧
    path <$> new = ["/docs"; "/docs/1.0"; "/docs/next"] ∧
    Forall (λ r, priority r = None ∨ priority r = Some (-1)) new.
Proof.
  assert ((contentLoaded (plugin := Site.site)
             (publishing := Staggered.publishing)
             Site.content Site.noActions).1 = Ok ()) as Hdone by by_eval.
  assert (versionPath <$>
            timeline (publishOrder (Publishing := Staggered.publishing))
                     (loadedVersions Site.content)
          = ["/docs"; "/docs/1.0"; "/docs/next"]) as Hpaths by by_eval.
  split; [assumption|].
  destruct (contentLoaded_latest_route_has_low_priority (plugin := Site.site)
              (publishing := Staggered.publishing) Site.content Site.noActions
              Hdone) as (new & Hroutes & _ & Hnew).
  exists new. split; [exact Hroutes|]. rewrite <- Hpaths.
  clear -Hnew. induction Hnew as [|lv r lvs rs (Hpath & _ & Hr) _ [IHp IHf]];
    [by split|].
  split; [cbn; by rewrite IHp, Hpath|by constructor].
Defined.

(** When the metadata prop of [1.0] cannot be written, nothing is
    published. *)
Lemma contentLoaded_failed_write_publishes_nothing_witness :
  Site.loaded10 ∈ loadedVersions Site.content ∧
  createData (Publishing := Faulty.publishing)
    (docuHash (Publishing := Faulty.publishing)
       ("version-" +:+ versionName (metadata Site.loaded10)
          +:+ "-metadata-prop") +:+ ".json")
    (stringifyVersionMetadataProp (Publishing := Faulty.publishing)
       Site.loaded10) = Err (Thrown "EACCES") ∧
  (∃ e, (contentLoaded (plugin := Site.site) (publishing := Faulty.publishing)
           Site.content Site.noActions).1 = Err e) ∧
  globalData (contentLoaded (plugin := Site.site)
                (publishing := Faulty.publishing)
                Site.content Site.noActions).2 = None.
Proof.
  assert (Site.loaded10 ∈ loadedVersions Site.content) as Hin.
  { apply (list_elem_of_lookup_2 _ 2%nat). by_eval. }
  assert (createData (Publishing := Faulty.publishing)
    (docuHash (Publishing := Faulty.publishing)
       ("version-" +:+ versionName (metadata Site.loaded10)
          +:+ "-metadata-prop") +:+ ".json")
    (stringifyVersionMetadataProp (Publishing := Faulty.publishing)
       Site.loaded10) = Err (Thrown "EACCES")) as Hfail by by_eval.
  repeat (split; [assumption|]).
  exact (contentLoaded_failed_write_publishes_nothing (plugin := Site.site)
           (publishing := Faulty.publishing) Site.content Site.noActions
           Site.loaded10 Hin (or_introl (ex_intro _ _ Hfail))).
Defined.

(** Loading the three versions and publishing them. *)
Lemma loadContent_then_contentLoaded_globalData_witness :
  (loadContent (plugin := Site.site) ∅).1 = Ok Site.content ∧
  (contentLoaded (plugin := Site.site) (publishing := Site.publishing)
     Site.content Site.noActions).1 = Ok () ∧
  ∃ data,
    globalData (contentLoaded (plugin := Site.site)
                  (publishing := Site.publishing)
                  Site.content Site.noActions).2 = Some data ∧
    gd_path data = "/docs".
Proof.
  assert ((loadContent (plugin := Site.site) ∅).1 = Ok Site.content)
    as Hcontent by by_eval.
  assert ((contentLoaded (plugin := Site.site) (publishing := Site.publishing)
             Site.content Site.noActions).1 = Ok ()) as Hdone by by_eval.
  repeat (split; [assumption|]).
  destruct (loadContent_then_contentLoaded_globalData (plugin := Site.site)
              (publishing := Site.publishing) ∅ Site.content Site.noActions
              Hcontent Hdone) as (data & Hdata & Hpath & _).
  exists data. split; [exact Hdata|]. rewrite Hpath. by_eval.
Defined.
